(** * Infection propagation and corner-to-corner path finding

    A shallow embedding of [infection_coloured.py]: the class [Infection]
    with its methods [spawn], [infect], [get_neighbours], [propagate],
    [adjacency_list], [bfs] and [compute_path], followed by the properties
    of the simulation and of the path search.

    Modelling conventions.
    - Python integers are [Z].  The floats [seed] and [risk] are IEEE 754
      binary64 numbers, [spec_float] of the standard library with precision
      53 and maximal exponent 1024, so that NaN, the infinities and the
      rounding of [self.size * self.seed] are those of the code.  A sample
      of [random.random()] is a finite float of [0, 1) and is kept as its
      exact rational value in [Q].  A rational or numeral written where a
      float is expected stands for [float_of_Q] of it, which is that very
      number for the constants used here (0, 1, 1/2, 1/4 and
      0.6666666666666666).
    - The dictionary [self.infected] is a [gmap Z (option Z)]; [None] as a
      value is the inner [None], a missing key is the outer one.  Its keys
      are inserted by [__init__] in the order [0 .. size-1] and no method
      adds or removes a key (lemma [reachable_keys]), so iterating
      [self.infected.items()] visits [seqZ 0 size] in this order and reads
      the value stored at the moment the key is reached.
    - The module-level generator [random] is an oracle [RandomSource]
      indexed by the number of draws made so far, which the state counts.
    - Console output of [show_infection] is not modelled; the coordinates
      printed by [compute_path] are returned as a list. *)

From Stdlib Require Import ZArith QArith Qround Lia SpecFloat.
From stdpp Require Import gmap list sets strings.

Local Open Scope Z_scope.

(** ** Data model *)

(** Exceptions that the modelled methods can raise. *)
Inductive exn : Type :=
  | KeyError (k : Z)
  | IndexError
  | ValueError
  | OverflowError.

(** Outcome of a method that returns a value or raises. *)
Inductive Except (A : Type) : Type :=
  | Return (a : A)
  | Raise (e : exn).
Arguments Return {A} a.
Arguments Raise {A} e.

(** Sequencing, written [x ← m; k] below: an exception ends the method. *)
#[export] Instance except_bind : MBind Except :=
  λ A B (f : A → Except B) (m : Except A),
    match m with
    | Return a => f a
    | Raise e => Raise e
    end.

(** ** Floats *)

(** [float(n)] for an integer [n]: the nearest binary64 number, ties to
    even; an integer too large for a float comes out as an infinity, where
    Python raises [OverflowError]. *)
Definition float_of_Z (n : Z) : spec_float :=
  binary_normalize 53 1024 n 0 false.

(** The correctly rounded quotient of the floats of the numerator and of
    the denominator, used to write float constants. *)
Definition float_of_Q (q : Q) : spec_float :=
  SFdiv 53 1024 (float_of_Z (Qnum q)) (float_of_Z (Zpos (Qden q))).

Coercion float_of_Q : Q >-> spec_float.
Bind Scope Q_scope with spec_float.

(** The rational value of the finite float with sign [s], mantissa [m]
    and exponent [e]. *)
Definition float_value (s : bool) (m : positive) (e : Z) : Q :=
  (inject_Z (if s then Zneg m else Zpos m) * Qpower 2 e)%Q.

(** [sample <= ir] for a finite [sample]: false when [ir] is NaN. *)
Definition sample_le (sample : Q) (ir : spec_float) : bool :=
  match ir with
  | S754_zero _ => Qle_bool sample 0
  | S754_infinity s => negb s
  | S754_nan => false
  | S754_finite s m e => Qle_bool sample (float_value s m e)
  end.

(** [math.floor(x)]: [ValueError] on NaN, [OverflowError] on an
    infinity. *)
Definition float_floor (x : spec_float) : Except Z :=
  match x with
  | S754_zero _ => Return 0
  | S754_infinity _ => Raise OverflowError
  | S754_nan => Raise ValueError
  | S754_finite s m e => Return (Qfloor (float_value s m e))
  end.

(** [n * x] for an integer [n] and a float [x]: [n] is converted to a
    float first, then the product is rounded to the nearest float. *)
Definition int_times_float (n : Z) (x : spec_float) : Except spec_float :=
  match float_of_Z n with
  | S754_infinity _ => Raise OverflowError
  | fn => Return (SFmul 53 1024 fn x)
  end.

(** The attributes of an [Infection] object, as set by [__init__]. *)
Record Infection : Type := mkInfection {
  rows : Z;
  cols : Z;
  seed : spec_float;
  risk : spec_float;
  iterations : Z;
  generation : Z;
  size : Z;
  route : option (list Z);
  infected : gmap Z (option Z)
}.

(** The source of randomness: the [k]-th draw read as a sample of
    [random.random()] or as the raw index used by [random.choice]. *)
Record RandomSource : Type := mkRandomSource {
  random_random : nat → Q;
  random_index : nat → nat
}.

(** [random.random()] returns a float in the half-open interval [0, 1). *)
Definition unit_samples (rs : RandomSource) : Prop :=
  ∀ k, (0 <= random_random rs k)%Q ∧ (random_random rs k < 1)%Q.

(** Program state: the object and the number of draws consumed. *)
Record World : Type := mkWorld {
  self : Infection;
  draws : nat
}.

(** Outcome of a method that may raise; the state reached is kept. *)
Inductive Result (A : Type) : Type :=
  | Ok (a : A)
  | Raised (e : exn) (w : World).
Arguments Ok {A} a.
Arguments Raised {A} e w.

(** Lines 52-66: the range checks made on the command-line arguments. *)
Definition check_args (rows cols : Z) (seed risk : spec_float)
    (iterations : Z) : bool :=
  if rows <=? 0 then false
  else if cols <=? 0 then false
  else if SFltb seed (float_of_Z 0) || SFltb (float_of_Z 1) seed then false
  else if SFltb risk (float_of_Z 0) || SFltb (float_of_Z 1) risk then false
  else if iterations <? 0 then false
  else true.

(** ** [__init__] *)

Definition init_infected (size : Z) : gmap Z (option Z) :=
  foldl (λ d i, <[i := None]> d) ∅ (seqZ 0 size).

Definition Infection_init (rows cols : Z) (seed risk : spec_float)
    (iterations : Z) : Infection :=
  {| rows := rows; cols := cols; seed := seed; risk := risk;
     iterations := iterations; generation := 0; size := rows * cols;
     route := None; infected := init_infected (rows * cols) |}.

Definition start_world (rows cols : Z) (seed risk : spec_float)
    (iterations : Z) : World :=
  {| self := Infection_init rows cols seed risk iterations; draws := 0 |}.

(** ** State updates *)

Definition set_infected (d : gmap Z (option Z)) (s : Infection) : Infection :=
  {| rows := rows s; cols := cols s; seed := seed s; risk := risk s;
     iterations := iterations s; generation := generation s; size := size s;
     route := route s; infected := d |}.

Definition set_generation (g : Z) (s : Infection) : Infection :=
  {| rows := rows s; cols := cols s; seed := seed s; risk := risk s;
     iterations := iterations s; generation := g; size := size s;
     route := route s; infected := infected s |}.

Definition set_route (r : option (list Z)) (s : Infection) : Infection :=
  {| rows := rows s; cols := cols s; seed := seed s; risk := risk s;
     iterations := iterations s; generation := generation s; size := size s;
     route := r; infected := infected s |}.

(** ** [infect] *)

(** [pos in {0, self.size - 1}] *)
Definition is_corner (s : Infection) (pos : Z) : bool :=
  (pos =? 0) || (pos =? size s - 1).

(** One call of [infect(pos, risk)]: a sample is drawn first, then the
    corner test is made; on success the cell is stamped with the current
    generation, whatever it held before. *)
Definition infect (rs : RandomSource) (pos : Z)
    (risk_arg : option spec_float) (w : World) : World :=
  let s := self w in
  let ir := match risk_arg with None => risk s | Some r => r end in
  let sample := random_random rs (draws w) in
  if sample_le sample ir && negb (is_corner s pos)
  then {| self := set_infected (<[pos := Some (generation s)]> (infected s)) s;
          draws := S (draws w) |}
  else {| self := s; draws := S (draws w) |}.

(** ** [spawn] *)

(** [random.choice(seq)]: the element at a drawn index below [len(seq)];
    [None] stands for the [IndexError] raised on an empty sequence. *)
Definition random_choice (rs : RandomSource) (k : nat) (seq : list Z)
  : option Z :=
  match seq with
  | [] => None
  | _ => seq !! (random_index rs k mod length seq)%nat
  end.

Fixpoint spawn_loop (rs : RandomSource) (n : nat) (positions : gset Z)
    (w : World) : Result World :=
  match n with
  | O => Ok w
  | S n' =>
      match random_choice rs (draws w) (elements positions) with
      | None => Raised IndexError w
      | Some random_pos =>
          let w1 := {| self := self w; draws := S (draws w) |} in
          let w2 := infect rs random_pos (Some (float_of_Z 1)) w1 in
          spawn_loop rs n' (positions ∖ {[random_pos]}) w2
      end
  end.

(** The pool of seed positions: every key except the two corners. *)
Definition seed_pool (s : Infection) : gset Z :=
  dom (infected s) ∖ {[0; size s - 1]}.

(** [math.floor(self.size * self.seed)] *)
Definition seed_count (s : Infection) : Except Z :=
  product ← int_times_float (size s) (seed s);
  float_floor product.

(** The count is computed, and may raise, before the first draw; a
    negative count gives an empty [range]. *)
Definition spawn (rs : RandomSource) (w : World) : Result World :=
  match seed_count (self w) with
  | Raise e => Raised e w
  | Return count =>
      spawn_loop rs (Z.to_nat count) (seed_pool (self w)) w
  end.

(** ** [get_neighbours] *)

(** The dictionary [{'u': up, 'd': down, 'l': left, 'r': right}], kept as
    an association list in its insertion order.  [cols] is not zero
    whenever the source calls this method. *)
Definition get_neighbours (s : Infection) (pos : Z)
  : list (string * option Z) :=
  let up := if pos - cols s <? 0 then None else Some (pos - cols s) in
  let down := if pos + cols s >=? size s then None else Some (pos + cols s) in
  let left := if pos mod cols s =? 0 then None else Some (pos - 1) in
  let right := if (pos + 1) mod cols s =? 0 then None else Some (pos + 1) in
  [("u", up); ("d", down); ("l", left); ("r", right)]%string.

(** The neighbours that are not [None], in enumeration order. *)
Definition neighbour_cells (s : Infection) (pos : Z) : list Z :=
  omap snd (get_neighbours s pos).

(** ** [propagate] *)

(** The test [gen is not None and gen < self.generation] on the value
    stored under [pos] when the iteration reaches it. *)
Definition transmits (w : World) (pos : Z) : bool :=
  match infected (self w) !! pos with
  | Some (Some gen) => gen <? generation (self w)
  | _ => false
  end.

(** The inner loop: one [infect(n)] for each neighbour that is not [None]. *)
Definition infect_neighbours (rs : RandomSource) (pos : Z) (w : World)
  : World :=
  foldl (λ w' kn, match snd kn with
                  | Some n => infect rs n None w'
                  | None => w'
                  end)
        w (get_neighbours (self w) pos).

(** The body of [for pos, gen in self.infected.items()]. *)
Definition visit (rs : RandomSource) (w : World) (pos : Z) : World :=
  if transmits w pos then infect_neighbours rs pos w else w.

(** [self.generation += 1] *)
Definition next_generation (w : World) : World :=
  {| self := set_generation (generation (self w) + 1) (self w);
     draws := draws w |}.

(** The cells visited by a round up to, but excluding, index [k]. *)
Definition round_prefix (rs : RandomSource) (k : nat) (w : World) : World :=
  foldl (visit rs) (next_generation w) (take k (seqZ 0 (size (self w)))).

(** One pass of the body of the [while] loop. *)
Definition round (rs : RandomSource) (w : World) : World :=
  foldl (visit rs) (next_generation w) (seqZ 0 (size (self w))).

Fixpoint propagate_loop (rs : RandomSource) (fuel : nat) (w : World)
  : World :=
  match fuel with
  | O => w
  | S fuel' =>
      if generation (self w) <? iterations (self w)
      then propagate_loop rs fuel' (round rs w)
      else w
  end.

(** [while self.generation < self.iterations]: each pass adds one to
    [generation], so [iterations - generation] passes are enough
    (lemma [propagate_unfold] gives back the loop equation). *)
Definition propagate (rs : RandomSource) (w : World) : World :=
  propagate_loop rs
    (Z.to_nat (iterations (self w) - generation (self w))) w.

(** [spawn] followed by [propagate], as in the main block. *)
Definition simulate (rs : RandomSource) (w : World) : Result World :=
  match spawn rs w with
  | Ok w' => Ok (propagate rs w')
  | Raised e w' => Raised e w'
  end.

(** ** Methods that only read the state *)

(** ** [adjacency_list] *)

(** The inner loop of [adjacency_list]: the neighbours that are not [None]
    and whose entry [self.infected[n]] is [None] are appended to the row;
    a missing key raises. *)
Fixpoint free_neighbours (d : gmap Z (option Z))
    (ns : list (string * option Z)) (row : list Z) : Except (list Z) :=
  match ns with
  | [] => Return row
  | (_, None) :: ns' => free_neighbours d ns' row
  | (_, Some n) :: ns' =>
      match d !! n with
      | None => Raise (KeyError n)
      | Some None => free_neighbours d ns' (row ++ [n])
      | Some (Some _) => free_neighbours d ns' row
      end
  end.

Fixpoint adjacency_loop (s : Infection) (keys : list Z)
    (alist : gmap Z (list Z)) : Except (gmap Z (list Z)) :=
  match keys with
  | [] => Return alist
  | pos :: keys' =>
      match infected s !! pos with
      | Some None =>
          row ← free_neighbours (infected s) (get_neighbours s pos) [];
          adjacency_loop s keys' (<[pos := row]> alist)
      | _ => adjacency_loop s keys' alist
      end
  end.

Definition adjacency_list (s : Infection) : Except (gmap Z (list Z)) :=
  adjacency_loop s (seqZ 0 (size s)) ∅.

(** ** [bfs] *)

(** [for n in neighbours]: every extended path is appended to the queue;
    the extension that reaches the goal is returned at once ([inl]). *)
Fixpoint extend (goal : Z) (path neighbours : list Z)
    (queue : list (list Z)) : list Z + list (list Z) :=
  match neighbours with
  | [] => inr queue
  | n :: ns =>
      let new_path := path ++ [n] in
      let queue' := queue ++ [new_path] in
      if n =? goal then inl new_path else extend goal path ns queue'
  end.

(** [while queue]; [None] means that the fuel ran out before the loop
    ended, which [bfs_loop_terminates] excludes for the fuel of [bfs]. *)
Fixpoint bfs_loop (fuel : nat) (alist : gmap Z (list Z)) (goal : Z)
    (queue : list (list Z)) (visited : list Z)
  : option (Except (option (list Z))) :=
  match fuel with
  | O => None
  | S fuel' =>
      match queue with
      | [] => Some (Return None)
      | path :: queue' =>
          match last path with
          | None => Some (Raise IndexError)
          | Some cell =>
              if bool_decide (cell ∈ visited)
              then bfs_loop fuel' alist goal queue' visited
              else
                match alist !! cell with
                | None => Some (Raise (KeyError cell))
                | Some neighbours =>
                    match extend goal path neighbours queue' with
                    | inl new_path => Some (Return (Some new_path))
                    | inr queue'' =>
                        bfs_loop fuel' alist goal queue'' (visited ++ [cell])
                    end
                end
          end
      end
  end.

(** A bound on the number of passes of the [while] loop: every key of the
    adjacency list is expanded at most once and adds at most four paths. *)
Definition bfs_fuel (alist : gmap Z (list Z)) : nat :=
  (2 + 5 * base.size (dom alist))%nat.

Definition bfs (s : Infection) : Except (option (list Z)) :=
  alist ← adjacency_list s;
  match bfs_loop (bfs_fuel alist) alist (size s - 1) [[0]] [] with
  | Some r => r
  | None => Return None
  end.

(** ** [compute_path] *)

(** [path[pos] = (i, j)] on an [OrderedDict]: a known key keeps its place. *)
Fixpoint ordered_insert (pos : Z) (c : Z * Z) (path : list (Z * (Z * Z)))
  : list (Z * (Z * Z)) :=
  match path with
  | [] => [(pos, c)]
  | (k, v) :: path' =>
      if k =? pos then (k, c) :: path' else (k, v) :: ordered_insert pos c path'
  end.

(** [i = math.floor(pos / self.rows)] and [j = pos % self.cols]. *)
Definition coordinate (s : Infection) (pos : Z) : Z * Z :=
  (pos / rows s, pos mod cols s).

(** What [compute_path] prints before it exits. *)
Inductive Output : Type :=
  | NoPath
  | Coordinates (cs : list (Z * Z)).

Definition compute_path (s : Infection) : Except (Infection * Output) :=
  r ← bfs s;
  let s' := set_route r s in
  match r with
  | None => Return (s', NoPath)
  | Some cells =>
      let path := foldl (λ p pos, ordered_insert pos (coordinate s' pos) p)
                        [] cells in
      Return (s', Coordinates (map snd path))
  end.

(** The main block: [spawn], [propagate], [compute_path]. *)
Definition main (rs : RandomSource) (rows cols : Z)
    (seed risk : spec_float) (iterations : Z) : Result (World * Output) :=
  match simulate rs (start_world rows cols seed risk iterations) with
  | Raised e w => Raised e w
  | Ok w =>
      match compute_path (self w) with
      | Raise e => Raised e w
      | Return (s', out) => Ok ({| self := s'; draws := draws w |}, out)
      end
  end.

(** ** Vocabulary of the properties *)

(** The state reached by a method that may raise. *)
Definition world_of (r : Result World) : World :=
  match r with
  | Ok w => w
  | Raised _ w => w
  end.

(** The attributes that no method assigns after [__init__]. *)
Definition same_setup (s s' : Infection) : Prop :=
  rows s' = rows s ∧ cols s' = cols s ∧ size s' = size s ∧
  seed s' = seed s ∧ risk s' = risk s ∧ iterations s' = iterations s.

(** Both corners are keys of the dictionary and hold [None]. *)
Definition corners_clear (s : Infection) : Prop :=
  infected s !! 0 = Some None ∧ infected s !! (size s - 1) = Some None.

(** A 1 x 4 grid after the seeding of cell 1 alone, with [risk = 1] and
    one round to run. *)
Definition one_seed_before_round : World :=
  {| self := {| rows := 1; cols := 4; seed := 1 # 4; risk := 1;
                iterations := 1; generation := 0; size := 4; route := None;
                infected := <[1 := Some 0]> (init_infected 4) |};
     draws := 2 |}.

(** A random source that repeats one sample and one index. *)
Definition constant_source (q : Q) (i : nat) : RandomSource :=
  {| random_random := λ _, q; random_index := λ _, i |}.

(** The cells that hold a generation number. *)
Definition infected_cells (s : Infection) : gset Z :=
  dom (filter (λ kv, is_Some (snd kv)) (infected s)).

(** The frontier of a round read from the state at its start: the cells
    whose generation is set and below the number of the round. *)
Definition snapshot_frontier (w : World) : list Z :=
  filter (λ pos, transmits (next_generation w) pos = true)
         (seqZ 0 (size (self w))).

(** The cells that pass the test of [propagate] when the iteration of the
    round reaches them. *)
Definition transmitters (rs : RandomSource) (w : World) : list Z :=
  omap (λ k, pos ← seqZ 0 (size (self w)) !! k;
             if transmits (round_prefix rs k w) pos then Some pos else None)
       (seq 0 (Z.to_nat (size (self w)))).

(** The object after seeding cells 1 and 2 of a 1 x 4 grid, in round 1. *)
Definition two_seeds_round_one : Infection :=
  {| rows := 1; cols := 4; seed := 1 # 2; risk := 1; iterations := 1;
     generation := 1; size := 4; route := None;
     infected := <[2 := Some 0]> (<[1 := Some 0]> (init_infected 4)) |}.

(** ** Routes *)

(** The cell holds [None]: it is a key of the dictionary, never infected. *)
Definition uninfected (s : Infection) (c : Z) : Prop :=
  infected s !! c = Some None.

Definition in_grid (s : Infection) (c : Z) : Prop := 0 ≤ c < size s.

(** The coordinates of a cell under [id = row * cols + col]. *)
Definition row_of (s : Infection) (c : Z) : Z := c / cols s.
Definition col_of (s : Infection) (c : Z) : Z := c mod cols s.

(** Two cells of the grid are 4-adjacent: same row and columns one apart,
    or same column and rows one apart. *)
Definition adjacent4 (s : Infection) (a b : Z) : Prop :=
  in_grid s a ∧ in_grid s b ∧
  ((row_of s a = row_of s b ∧ Z.abs (col_of s a - col_of s b) = 1) ∨
   (col_of s a = col_of s b ∧ Z.abs (row_of s a - row_of s b) = 1)).

(** A non-empty sequence whose consecutive entries are related by [R]. *)
Inductive linked (R : Z → Z → Prop) : list Z → Prop :=
  | linked_one c : linked R [c]
  | linked_cons a b l : R a b → linked R (b :: l) → linked R (a :: b :: l).

(** A route through uninfected cells from the start corner to the goal
    corner. *)
Definition free_route (s : Infection) (l : list Z) : Prop :=
  head l = Some 0 ∧ last l = Some (size s - 1) ∧
  Forall (uninfected s) l ∧ linked (adjacent4 s) l.

(** An edge of an adjacency list. *)
Definition edge (alist : gmap Z (list Z)) (a b : Z) : Prop :=
  ∃ row, alist !! a = Some row ∧ b ∈ row.

(** A walk of the adjacency list that starts at cell 0. *)
Definition walk (alist : gmap Z (list Z)) (p : list Z) : Prop :=
  head p = Some 0 ∧ linked (edge alist) p.

(** Cell [c] ends a walk of [k] edges. *)
Definition reach (alist : gmap Z (list Z)) (k : nat) (c : Z) : Prop :=
  ∃ p, walk alist p ∧ last p = Some c ∧ length p = S k.

(** The invariant of the [while] loop of [bfs] while the paths of [k]
    edges are being taken from the queue. *)
Record bfs_inv (alist : gmap Z (list Z)) (goal : Z) (k : nat)
    (queue : list (list Z)) (visited : list Z) : Prop := {
  inv_walks : ∀ q, q ∈ queue → walk alist q;
  inv_levels : ∃ q1 q2, queue = q1 ++ q2 ∧
                 Forall (λ q, length q = S k) q1 ∧
                 Forall (λ q, length q = S (S k)) q2;
  inv_below : ∀ j c, (j < k)%nat → reach alist j c → c ∈ visited;
  inv_level : ∀ c, reach alist k c →
                c ∈ visited ∨
                ∃ q, q ∈ queue ∧ length q = S k ∧ last q = Some c;
  inv_children : ∀ v n, v ∈ visited → edge alist v n →
                   n ∈ visited ∨ ∃ q, q ∈ queue ∧ last q = Some n;
  inv_goal : ∀ v, v ∈ visited → ¬ edge alist v goal
}.

(** The keys of the dictionary are the cells of the grid, and the grid
    has [rows * cols] cells with [cols] positive. *)
Definition keys_in_grid (s : Infection) : Prop :=
  0 < cols s ∧ size s = rows s * cols s ∧
  ∀ c, c ∈ dom (infected s) ↔ in_grid s c.

(** Every stored generation number lies between 0 and the current
    generation. *)
Definition generations_bounded (s : Infection) : Prop :=
  0 ≤ generation s ∧
  ∀ c g, infected s !! c = Some (Some g) → 0 ≤ g ≤ generation s.

(** During the round that follows state [w0], cell [c] either holds what
    it held in [w0], or has been stamped with the number [r] of the round
    and is a non-corner neighbour of a cell that was infected in [w0]. *)
Definition spread_from (w0 : World) (r : Z) (w : World) : Prop :=
  same_setup (self w0) (self w) ∧ generation (self w) = r ∧
  ∀ c, infected (self w) !! c = infected (self w0) !! c ∨
       (infected (self w) !! c = Some (Some r) ∧
        is_corner (self w0) c = false ∧
        ∃ pos g, c ∈ neighbour_cells (self w0) pos ∧
                 infected (self w0) !! pos = Some (Some g) ∧ g < r).

(** * Properties *)

(** ** Frame lemmas: what [infect] leaves alone *)

Section Frame.
Variable rs : RandomSource.

Lemma same_setup_refl s : same_setup s s.
Proof. by repeat split. Qed.

Lemma same_setup_trans s1 s2 s3 :
  same_setup s1 s2 → same_setup s2 s3 → same_setup s1 s3.
Proof. unfold same_setup. intuition congruence. Qed.

Lemma infect_setup pos r w :
  same_setup (self w) (self (infect rs pos r w)) ∧
  generation (self (infect rs pos r w)) = generation (self w).
Proof.
  unfold infect.
  destruct (sample_le _ _ && negb _); simpl; split; auto using same_setup_refl.
  by repeat split.
Qed.

Lemma infect_draws pos r w : draws (infect rs pos r w) = S (draws w).
Proof. unfold infect. by destruct (sample_le _ _ && negb _). Qed.

(** The entry of a cell after one call: stamped with the generation when
    the call succeeds on that cell, unchanged otherwise. *)
Lemma infect_lookup pos r w c :
  infected (self (infect rs pos r w)) !! c =
    if sample_le (random_random rs (draws w))
                 (match r with None => risk (self w) | Some q => q end)
       && negb (is_corner (self w) pos) && bool_decide (c = pos)
    then Some (Some (generation (self w)))
    else infected (self w) !! c.
Proof.
  unfold infect.
  destruct (sample_le _ _ && negb _); simpl; [|done].
  case_bool_decide; subst; simpl.
  - apply lookup_insert_eq.
  - by apply lookup_insert_ne.
Qed.

(** A call either keeps an entry or stamps it with the generation. *)
Lemma infect_entry pos r w c :
  infected (self (infect rs pos r w)) !! c = infected (self w) !! c ∨
  (c = pos ∧ is_corner (self w) pos = false ∧
   infected (self (infect rs pos r w)) !! c =
     Some (Some (generation (self w)))).
Proof.
  rewrite infect_lookup.
  destruct (sample_le _ _); simpl; [|by left].
  destruct (is_corner (self w) pos) eqn:Hc; simpl; [by left|].
  case_bool_decide; [right|left]; done.
Qed.

(** No call removes a key, and no call adds one below an existing key. *)
Lemma infect_dom pos r w :
  pos ∈ dom (infected (self w)) →
  dom (infected (self (infect rs pos r w))) = dom (infected (self w)).
Proof.
  intros Hin. unfold infect.
  destruct (sample_le _ _ && negb _); simpl; [|done].
  rewrite dom_insert_L. apply subseteq_union_1_L.
  by apply singleton_subseteq_l.
Qed.

(** An infected cell stays infected. *)
Lemma infect_keeps_infected pos r w c g :
  infected (self w) !! c = Some (Some g) →
  ∃ g', infected (self (infect rs pos r w)) !! c = Some (Some g').
Proof.
  intros H. destruct (infect_entry pos r w c) as [->|(_ & _ & ->)]; eauto.
Qed.
End Frame.

(** ** Invariants of the simulation

    [infect] and [self.generation += 1] are the only assignments made by
    [spawn] and [propagate]; a property of the object kept by both is kept
    by every loop built from them. *)

Section Preservation.
Variable rs : RandomSource.
Variable P : Infection → Prop.
Hypothesis P_infect :
  ∀ pos r w, P (self w) → P (self (infect rs pos r w)).
Hypothesis P_generation :
  ∀ s, P s → P (set_generation (generation s + 1) s).

Lemma spawn_loop_preserves n positions w :
  P (self w) → P (self (world_of (spawn_loop rs n positions w))).
Proof.
  revert positions w. induction n as [|n IH]; intros positions w Hw; [done|].
  simpl. destruct (random_choice _ _ _) as [p|]; [|done].
  apply IH. by apply P_infect.
Qed.

Lemma spawn_preserves w :
  P (self w) → P (self (world_of (spawn rs w))).
Proof.
  intros Hw. unfold spawn. destruct (seed_count (self w)); [|done].
  by apply spawn_loop_preserves.
Qed.

Lemma infect_neighbours_preserves pos w :
  P (self w) → P (self (infect_neighbours rs pos w)).
Proof.
  unfold infect_neighbours. generalize (get_neighbours (self w) pos).
  intros ns. revert w. induction ns as [|[k [n|]] ns IH]; intros w Hw; simpl;
    auto.
Qed.

Lemma visit_preserves w pos : P (self w) → P (self (visit rs w pos)).
Proof.
  unfold visit. destruct (transmits w pos); [|done].
  apply infect_neighbours_preserves.
Qed.

Lemma visits_preserve ps w :
  P (self w) → P (self (foldl (visit rs) w ps)).
Proof.
  revert w. induction ps as [|p ps IH]; intros w Hw; simpl; [done|].
  apply IH. by apply visit_preserves.
Qed.

Lemma round_prefix_preserves k w :
  P (self w) → P (self (round_prefix rs k w)).
Proof.
  intros Hw. apply visits_preserve. simpl. by apply P_generation.
Qed.

Lemma round_preserves w : P (self w) → P (self (round rs w)).
Proof.
  intros Hw. apply visits_preserve. simpl. by apply P_generation.
Qed.

Lemma propagate_loop_preserves fuel w :
  P (self w) → P (self (propagate_loop rs fuel w)).
Proof.
  revert w. induction fuel as [|fuel IH]; intros w Hw; simpl; [done|].
  destruct (_ <? _); [|done]. apply IH. by apply round_preserves.
Qed.

Lemma propagate_preserves w : P (self w) → P (self (propagate rs w)).
Proof. apply propagate_loop_preserves. Qed.
End Preservation.

(** ** The loop equation of [propagate] *)

Lemma visits_generation rs ps w :
  generation (self (foldl (visit rs) w ps)) = generation (self w) ∧
  same_setup (self w) (self (foldl (visit rs) w ps)).
Proof.
  apply (visits_preserve rs
    (λ s, generation s = generation (self w) ∧ same_setup (self w) s)).
  - intros pos r w' [Hg Hs]. destruct (infect_setup rs pos r w') as [Hs' Hg'].
    split; [congruence|]. eauto using same_setup_trans.
  - split; [done|apply same_setup_refl].
Qed.

Lemma round_generation rs w :
  generation (self (round rs w)) = generation (self w) + 1 ∧
  same_setup (self w) (self (round rs w)).
Proof.
  unfold round.
  destruct (visits_generation rs (seqZ 0 (size (self w))) (next_generation w))
    as [Hg Hs].
  split; [by rewrite Hg|]. exact Hs.
Qed.

Lemma propagate_loop_more rs fuel w :
  (Z.to_nat (iterations (self w) - generation (self w)) ≤ fuel)%nat →
  propagate_loop rs fuel w = propagate rs w.
Proof.
  unfold propagate.
  revert w. induction fuel as [|fuel IH]; intros w Hle.
  - by replace (Z.to_nat _) with 0%nat by lia.
  - simpl. destruct (Z.ltb_spec (generation (self w)) (iterations (self w)))
      as [Hlt|Hge].
    + destruct (Z.to_nat (iterations (self w) - generation (self w)))
        as [|m] eqn:Hm; [lia|]. simpl.
      apply Z.ltb_lt in Hlt as Hlt'. rewrite Hlt'.
      destruct (round_generation rs w) as [Hg (_ & _ & _ & _ & _ & Hi)].
      rewrite IH by lia. f_equal. lia.
    + destruct (Z.to_nat _) eqn:Hm; [done|lia].
Qed.

(** [while self.generation < self.iterations: <round>]. *)
Lemma propagate_unfold rs w :
  propagate rs w =
    if generation (self w) <? iterations (self w)
    then propagate rs (round rs w)
    else w.
Proof.
  rewrite <- (propagate_loop_more rs
    (S (Z.to_nat (iterations (self w) - generation (self w))))) by lia.
  simpl. destruct (Z.ltb_spec (generation (self w)) (iterations (self w)));
    [|done].
  apply propagate_loop_more.
  destruct (round_generation rs w) as [Hg (_ & _ & _ & _ & _ & Hi)]. lia.
Qed.

(** ** The dictionary built by [__init__] *)

Lemma fold_insert_None_lookup (l : list Z) (d : gmap Z (option Z)) c :
  foldl (λ d i, <[i := None]> d) d l !! c =
    if bool_decide (c ∈ l) then Some None else d !! c.
Proof.
  revert d. induction l as [|i l IH]; intros d.
  - case_bool_decide as Hin; [by apply elem_of_nil in Hin|done].
  - cbn [foldl]. rewrite IH. destruct (decide (c = i)) as [->|Hne].
    + rewrite (bool_decide_eq_true_2 (i ∈ i :: l)) by left.
      case_bool_decide; [done|apply lookup_insert_eq].
    + rewrite lookup_insert_ne by done.
      apply (f_equal (λ b : bool, if b then _ else _)), bool_decide_ext.
      rewrite elem_of_cons. tauto.
Qed.

Lemma init_infected_lookup n c :
  init_infected n !! c = if bool_decide (0 ≤ c < n) then Some None else None.
Proof.
  unfold init_infected. rewrite fold_insert_None_lookup, lookup_empty.
  assert (c ∈ seqZ 0 n ↔ 0 ≤ c < n) as Hiff by (rewrite elem_of_seqZ; lia).
  by rewrite (bool_decide_ext _ _ Hiff).
Qed.

Lemma init_infected_dom n c : c ∈ dom (init_infected n) ↔ 0 ≤ c < n.
Proof.
  rewrite elem_of_dom, init_infected_lookup.
  destruct (decide (0 ≤ c < n)) as [Hin|Hout].
  - rewrite bool_decide_eq_true_2 by done. split; [done|by eexists].
  - rewrite bool_decide_eq_false_2 by done. split; [by intros [? ?]|done].
Qed.

(** ** Corner immunity *)

Lemma infect_corners_clear rs pos r w :
  corners_clear (self w) → corners_clear (self (infect rs pos r w)).
Proof.
  intros [H0 Hg]. unfold corners_clear.
  destruct (infect_setup rs pos r w) as [(_ & _ & -> & _) _].
  split.
  - destruct (infect_entry rs pos r w 0) as [->|(<- & Hc & _)]; [done|].
    by unfold is_corner in Hc.
  - destruct (infect_entry rs pos r w (size (self w) - 1))
      as [->|(<- & Hc & _)]; [done|].
    unfold is_corner in Hc. rewrite Z.eqb_refl, orb_true_r in Hc. done.
Qed.

Lemma generation_corners_clear s :
  corners_clear s → corners_clear (set_generation (generation s + 1) s).
Proof. done. Qed.

Lemma check_args_range rows cols seed risk iterations :
  check_args rows cols seed risk iterations = true →
  0 < rows ∧ 0 < cols ∧ 0 ≤ iterations.
Proof.
  unfold check_args.
  destruct (Z.leb_spec rows 0); [done|].
  destruct (Z.leb_spec cols 0); [done|].
  destruct (_ || _); [done|]. destruct (_ || _); [done|].
  destruct (Z.ltb_spec iterations 0); [done|]. lia.
Qed.

Lemma start_corners_clear rows cols seed risk iterations :
  0 < rows → 0 < cols →
  corners_clear (Infection_init rows cols seed risk iterations).
Proof.
  intros Hr Hc. unfold corners_clear. simpl.
  rewrite !init_infected_lookup.
  rewrite !bool_decide_eq_true_2; [done|nia|nia].
Qed.

(** C5. For every valid input and every random source, the start cell 0
    and the goal cell [rows * cols - 1] hold [None] after seeding (whether
    [spawn] returns or raises), at every point of every propagation round,
    and in the final state. *)
Theorem corner_immunity rs rows cols seed risk iterations :
  check_args rows cols seed risk iterations = true →
  let w0 := start_world rows cols seed risk iterations in
  corners_clear (self (world_of (spawn rs w0))) ∧
  ∀ w1, spawn rs w0 = Ok w1 →
    (∀ n k, corners_clear (self (round_prefix rs k (propagate_loop rs n w1)))) ∧
    (∀ n, corners_clear (self (propagate_loop rs n w1))) ∧
    corners_clear (self (propagate rs w1)).
Proof.
  intros Hargs w0.
  destruct (check_args_range _ _ _ _ _ Hargs) as (Hr & Hc & _).
  assert (corners_clear (self (world_of (spawn rs w0)))) as Hspawn.
  { apply spawn_preserves; [apply infect_corners_clear|].
    by apply start_corners_clear. }
  split; [done|]. intros w1 Hw1. rewrite Hw1 in Hspawn. simpl in Hspawn.
  assert (∀ n, corners_clear (self (propagate_loop rs n w1))) as Hloop.
  { intros n. apply propagate_loop_preserves;
      auto using infect_corners_clear, generation_corners_clear. }
  split; [|split; [done|apply Hloop]].
  intros n k. apply round_prefix_preserves;
    auto using infect_corners_clear, generation_corners_clear.
Qed.

(** ** Zero rounds *)

(** C9. With [iterations = 0] the simulation is the seeding alone: the
    outcome of [spawn] followed by [propagate] is the outcome of [spawn],
    state and draw count included. *)
Theorem zero_round_identity rs rows cols seed risk :
  simulate rs (start_world rows cols seed risk 0) =
  spawn rs (start_world rows cols seed risk 0).
Proof.
  unfold simulate.
  set (w0 := start_world rows cols seed risk 0).
  assert (generation (self (world_of (spawn rs w0))) = 0 ∧
          iterations (self (world_of (spawn rs w0))) = 0) as Hkeep.
  { apply (spawn_preserves rs
      (λ s, generation s = 0 ∧ iterations s = 0)); [|done].
    intros pos r w [Hg Hi].
    destruct (infect_setup rs pos r w) as [(_ & _ & _ & _ & _ & Hi') Hg'].
    split; congruence. }
  destruct (spawn rs w0) as [w'|e w']; [|done].
  simpl in Hkeep. destruct Hkeep as [Hg Hi].
  rewrite propagate_unfold, Hg, Hi. done.
Qed.

Lemma corner_immunity_witness :
  check_args 2 2 (1 # 2) 1 1 = true ∧
  corners_clear
    (self (world_of (spawn (constant_source 0 0)
                       (start_world 2 2 (1 # 2) 1 1)))).
Proof.
  split; [reflexivity|].
  exact (proj1 (corner_immunity (constant_source 0 0) 2 2 (1 # 2) 1 1
                  eq_refl)).
Defined.

(** ** No cascade within a round *)

Lemma visits_fresh_cell rs ps w pos :
  infected (self w) !! pos = Some None ∨
  infected (self w) !! pos = Some (Some (generation (self w))) →
  generation (self (foldl (visit rs) w ps)) = generation (self w) ∧
  (infected (self (foldl (visit rs) w ps)) !! pos = Some None ∨
   infected (self (foldl (visit rs) w ps)) !! pos
     = Some (Some (generation (self w)))).
Proof.
  intros Hpos.
  apply (visits_preserve rs
    (λ s, generation s = generation (self w) ∧
          (infected s !! pos = Some None ∨
           infected s !! pos = Some (Some (generation (self w))))));
    [|done].
  intros p r w' [Hg He].
  destruct (infect_setup rs p r w') as [_ Hg'].
  split; [congruence|].
  destruct (infect_entry rs p r w' pos) as [->|(_ & _ & ->)]; [done|].
  right. by rewrite Hg.
Qed.

(** C8. A cell that holds [None] when a round starts makes no infection
    attempt during that round: wherever the iteration stands, visiting
    the cell changes nothing and draws nothing, even when the cell has been
    infected earlier in the same round. *)
Theorem no_cascade_within_round rs w pos k :
  infected (self w) !! pos = Some None →
  transmits (round_prefix rs k w) pos = false ∧
  visit rs (round_prefix rs k w) pos = round_prefix rs k w.
Proof.
  intros Hpos.
  assert (transmits (round_prefix rs k w) pos = false) as Hno.
  { unfold round_prefix.
    destruct (visits_fresh_cell rs (take k (seqZ 0 (size (self w))))
                (next_generation w) pos) as [Hg He]; [by left|].
    unfold transmits. rewrite Hg.
    destruct He as [->| ->]; [done|]. apply Z.ltb_irrefl. }
  split; [done|]. unfold visit. by rewrite Hno.
Qed.

Lemma no_cascade_within_round_witness :
  let rs := constant_source 0 0 in
  let w := one_seed_before_round in
  infected (self w) !! 2 = Some None ∧
  infected (self (round_prefix rs 2 w)) !! 2 = Some (Some 1) ∧
  transmits (round_prefix rs 2 w) 2 = false ∧
  visit rs (round_prefix rs 2 w) 2 = round_prefix rs 2 w.
Proof.
  intros rs w. split; [reflexivity|]. split; [by vm_compute|].
  exact (no_cascade_within_round rs w 2 2 eq_refl).
Defined.

(** ** Re-infection of an infected cell *)

(** C6. [infect] has no test for a cell that is already infected and
    compares the sample with [<=]: at generation 1 a call on cell 2, which
    holds generation 0, stores 1 there; and with [risk = 0] a sample equal
    to 0 infects an uninfected cell. *)
Theorem infect_ignores_previous_infection :
  let w := {| self := two_seeds_round_one; draws := 0 |} in
  infected (self w) !! 2 = Some (Some 0) ∧
  infected (self (infect (constant_source (1 # 2) 0) 2 None w)) !! 2
    = Some (Some 1) ∧
  let w0 := start_world 1 4 0 0 1 in
  risk (self w0) = 0%Q ∧
  infected (self w0) !! 1 = Some None ∧
  infected (self (infect (constant_source 0 0) 1 None w0)) !! 1
    = Some (Some 0).
Proof. vm_compute. repeat split. Qed.

(** C1. On a 1 x 4 grid with [seed = 1/2], [risk = 1] and one iteration,
    cell 2 is seeded with generation 0 and holds generation 1 after the
    round: its generation number has been changed. *)
Theorem generation_overwritten :
  let rs := constant_source 0 0 in
  let w0 := start_world 1 4 (1 # 2) 1 1 in
  check_args 1 4 (1 # 2) 1 1 = true ∧
  ∃ w1, spawn rs w0 = Ok w1 ∧
        infected (self w1) !! 2 = Some (Some 0) ∧
        infected (self (propagate rs w1)) !! 2 = Some (Some 1).
Proof.
  split; [reflexivity|]. eexists. split; [reflexivity|].
  split; vm_compute; reflexivity.
Qed.

(** C2. On the same run, cells 1 and 2 are both infected before round 1,
    but only cell 1 passes the test of the round: cell 2 has been stamped
    with generation 1 by cell 1 before the iteration reaches it, so it
    makes no attempt and the round draws two samples instead of four. *)
Theorem frontier_read_during_round :
  let rs := constant_source 0 0 in
  let w0 := start_world 1 4 (1 # 2) 1 1 in
  ∃ w1, spawn rs w0 = Ok w1 ∧
        snapshot_frontier w1 = [1; 2] ∧
        transmitters rs w1 = [1] ∧
        transmits (round_prefix rs 2 w1) 2 = false ∧
        draws (round rs w1) = (draws w1 + 2)%nat.
Proof.
  eexists. split; [reflexivity|]. repeat split; vm_compute; reflexivity.
Qed.

(** ** Seeding *)

Lemma random_choice_elem rs k (l : list Z) p :
  random_choice rs k l = Some p → p ∈ l.
Proof.
  unfold random_choice. destruct l as [|x l]; [done|].
  intros H. by apply list_elem_of_lookup_2 in H.
Qed.

Lemma random_choice_nonempty rs k (l : list Z) :
  l ≠ [] → is_Some (random_choice rs k l).
Proof.
  unfold random_choice. destruct l as [|x l]; [done|]. intros _.
  apply lookup_lt_is_Some_2, Nat.mod_upper_bound. done.
Qed.

Lemma unit_sample_le_1 rs k :
  unit_samples rs → sample_le (random_random rs k) (float_of_Z 1) = true.
Proof.
  intros H. apply Qle_bool_iff. apply Qle_trans with 1%Q.
  - apply Qlt_le_weak, H.
  - by vm_compute.
Qed.

(** While the pool lasts, each pass of the loop of [spawn] stamps one more
    position of the pool with the generation. *)
Lemma spawn_loop_exact rs n (positions : gset Z) w :
  unit_samples rs →
  (∀ p, p ∈ positions → is_corner (self w) p = false) →
  (n ≤ base.size positions)%nat →
  ∃ w' (picked : gset Z),
    spawn_loop rs n positions w = Ok w' ∧
    picked ⊆ positions ∧ base.size picked = n ∧
    ∀ c, infected (self w') !! c =
           if bool_decide (c ∈ picked) then Some (Some (generation (self w)))
           else infected (self w) !! c.
Proof.
  intros Hrs. revert positions w.
  induction n as [|n IH]; intros positions w Hcorner Hsize.
  - exists w, ∅. split; [done|]. split; [apply empty_subseteq|].
    split; [apply size_empty|]. intros c.
    by rewrite bool_decide_eq_false_2 by apply not_elem_of_empty.
  - simpl.
    destruct (random_choice_nonempty rs (draws w) (elements positions))
      as [p Hp].
    { intros Hnil. apply elements_empty_inv in Hnil.
      apply size_empty_iff in Hnil. lia. }
    rewrite Hp. apply random_choice_elem, elem_of_elements in Hp.
    set (w1 := {| self := self w; draws := S (draws w) |}).
    set (w2 := infect rs p (Some (float_of_Z 1)) w1).
    destruct (infect_setup rs p (Some (float_of_Z 1)) w1) as [(_ & _ & Hsz & _) Hg].
    destruct (IH (positions ∖ {[p]}) w2) as (w' & picked & Hrun & Hsub & Hn & Hlk).
    { intros q Hq. apply elem_of_difference in Hq as [Hq _].
      unfold is_corner. fold w2 in Hsz. rewrite Hsz. by apply Hcorner. }
    { rewrite size_difference by (by apply singleton_subseteq_l).
      rewrite size_singleton. lia. }
    exists w', ({[p]} ∪ picked). split; [done|]. split; [|split].
    + apply union_least; [by apply singleton_subseteq_l|].
      etrans; [exact Hsub|]. apply subseteq_difference_l. done.
    + rewrite size_union, size_singleton; [lia|].
      apply disjoint_singleton_l. intros Hin. apply Hsub in Hin.
      apply elem_of_difference in Hin as [_ Hin]. by apply Hin, elem_of_singleton.
    + intros c. rewrite Hlk. fold w2 in Hg. rewrite Hg. simpl.
      destruct (decide (c ∈ picked)) as [Hin|Hout].
      * rewrite !bool_decide_eq_true_2; [done| |done].
        apply elem_of_union. by right.
      * rewrite (bool_decide_eq_false_2 (c ∈ picked)) by done.
        unfold w2. rewrite infect_lookup. cbv iota.
        rewrite unit_sample_le_1 by done. simpl.
        destruct (decide (c = p)) as [->|Hne].
        -- rewrite Hcorner by done. simpl.
           rewrite !bool_decide_eq_true_2; [done| |done].
           apply elem_of_union. left. by apply elem_of_singleton.
        -- rewrite (bool_decide_eq_false_2 (c = p)) by done.
           rewrite andb_false_r.
           rewrite bool_decide_eq_false_2; [done|].
           intros Hin. apply elem_of_union in Hin as [Hin|Hin]; [|done].
           by apply elem_of_singleton in Hin.
Qed.

(** When more positions are requested than the pool holds, the choice
    from the emptied pool raises. *)
Lemma spawn_loop_exhausted rs n (positions : gset Z) w :
  (base.size positions < n)%nat →
  ∃ w', spawn_loop rs n positions w = Raised IndexError w'.
Proof.
  revert positions w. induction n as [|n IH]; intros positions w Hsize; [lia|].
  simpl. destruct (random_choice rs (draws w) (elements positions))
    as [p|] eqn:Hp; [|by eexists].
  apply random_choice_elem, elem_of_elements in Hp.
  apply IH. rewrite size_difference by (by apply singleton_subseteq_l).
  rewrite size_singleton.
  assert (base.size positions ≠ 0)%nat; [|lia].
  intros Hz. apply size_empty_inv in Hz. by apply Hz in Hp.
Qed.

Lemma elem_of_infected_cells s c :
  c ∈ infected_cells s ↔ ∃ g, infected s !! c = Some (Some g).
Proof.
  unfold infected_cells. rewrite elem_of_dom. split.
  - intros [v Hv]. apply map_lookup_filter_Some in Hv as [Hv [g Hg]].
    simpl in Hg. subst v. eauto.
  - intros [g Hg]. exists (Some g). apply map_lookup_filter_Some.
    split; [done|]. by exists g.
Qed.

Lemma elem_of_start_pool rows cols seed risk iterations c :
  c ∈ seed_pool (Infection_init rows cols seed risk iterations) ↔
  0 ≤ c < rows * cols ∧ c ≠ 0 ∧ c ≠ rows * cols - 1.
Proof.
  unfold seed_pool. simpl.
  rewrite elem_of_difference, init_infected_dom, elem_of_union,
    !elem_of_singleton.
  tauto.
Qed.

(** C7. [spawn] has no cap on the number of seeds.  On a 2 x 2 grid with
    [seed = 1], an input the argument checks accept, four seeds are
    requested from a pool of two and [spawn] raises [IndexError] whatever
    the random source; on a 1 x 3 grid with [seed = 0.6666666666666666]
    the product [3 * seed] rounds to the float 2.0, two seeds are requested
    from a pool of one, and [spawn] raises as well. *)
Theorem seeding_overcommit_raises rs :
  let w0 := start_world 2 2 1 0 0 in
  let w1 := start_world 1 3 (6004799503160661 # 9007199254740992) 0 0 in
  check_args 2 2 1 0 0 = true ∧
  seed_count (self w0) = Return 4 ∧
  base.size (seed_pool (self w0)) = 2%nat ∧
  (∃ w, spawn rs w0 = Raised IndexError w) ∧
  check_args 1 3 (6004799503160661 # 9007199254740992) 0 0 = true ∧
  seed_count (self w1) = Return 2 ∧
  base.size (seed_pool (self w1)) = 1%nat ∧
  (∃ w, spawn rs w1 = Raised IndexError w).
Proof.
  intros w0 w1.
  assert (seed_count (self w0) = Return 4) as H0 by (by vm_compute).
  assert (seed_count (self w1) = Return 2) as H1 by (by vm_compute).
  assert (base.size (seed_pool (self w0)) = 2%nat) as Hp0 by (by vm_compute).
  assert (base.size (seed_pool (self w1)) = 1%nat) as Hp1 by (by vm_compute).
  split; [by vm_compute|]. split; [exact H0|]. split; [exact Hp0|].
  split; [|split; [by vm_compute|]; split; [exact H1|]; split; [exact Hp1|]].
  - unfold spawn. rewrite H0. apply spawn_loop_exhausted. rewrite Hp0. lia.
  - unfold spawn. rewrite H1. apply spawn_loop_exhausted. rewrite Hp1. lia.
Qed.

(** ** Sequences of linked cells *)

Lemma linked_nonempty R l : linked R l → l ≠ [].
Proof. by destruct 1. Qed.

Lemma linked_snoc R p c n :
  linked R p → last p = Some c → R c n → linked R (p ++ [n]).
Proof.
  induction 1 as [a|a b l Hab Hl IH]; intros Hlast Hcn.
  - simpl in Hlast. injection Hlast as ->. simpl.
    apply linked_cons; [done|constructor].
  - simpl. apply linked_cons; [done|]. apply IH; [|done].
    by rewrite last_cons_cons in Hlast.
Qed.

Lemma linked_snoc_inv R p n :
  p ≠ [] → linked R (p ++ [n]) →
  linked R p ∧ ∃ c, last p = Some c ∧ R c n.
Proof.
  induction p as [|a p IH]; intros Hne Hl; [done|].
  destruct p as [|b p].
  - simpl in Hl. inversion Hl; subst. split; [constructor|].
    exists a. by split.
  - simpl in Hl. inversion Hl as [|? ? ? Hab Hrest]; subst.
    destruct IH as [Hp (c & Hc & Hcn)]; [done|done|].
    split; [by apply linked_cons|]. exists c. split; [|done].
    by rewrite last_cons_cons.
Qed.

Lemma linked_weaken (R R' : Z → Z → Prop) l :
  (∀ a b, R a b → R' a b) → linked R l → linked R' l.
Proof.
  intros HR. induction 1; [constructor|apply linked_cons; auto].
Qed.

Lemma head_snoc (p : list Z) n : p ≠ [] → head (p ++ [n]) = head p.
Proof. by destruct p. Qed.

Lemma walk_snoc alist p c n :
  walk alist p → last p = Some c → edge alist c n → walk alist (p ++ [n]).
Proof.
  intros [Hh Hl] Hlast He. split.
  - rewrite head_snoc; [done|]. by apply linked_nonempty in Hl.
  - by apply linked_snoc with c.
Qed.

Lemma reach_zero alist c : reach alist 0 c ↔ c = 0.
Proof.
  split.
  - intros (p & [Hh _] & Hlast & Hlen).
    destruct p as [|a [|b p]]; simpl in *; try done. congruence.
  - intros ->. exists [0]. repeat split. constructor.
Qed.

Lemma reach_succ alist k c :
  reach alist (S k) c ↔ ∃ c', reach alist k c' ∧ edge alist c' c.
Proof.
  split.
  - intros (p & [Hh Hl] & Hlast & Hlen).
    destruct (decide (p = [])) as [->|Hne]; [done|].
    destruct (exists_last Hne) as (p' & n & ->).
    rewrite last_snoc in Hlast. injection Hlast as ->.
    rewrite length_app in Hlen. simpl in Hlen.
    assert (p' ≠ []) as Hne' by (intros ->; simpl in Hlen; lia).
    apply linked_snoc_inv in Hl as [Hl' (c' & Hc' & He)]; [|done].
    exists c'. split; [|done]. exists p'. split; [|split; [done|lia]].
    split; [|done]. by rewrite head_snoc in Hh.
  - intros (c' & (p & Hw & Hlast & Hlen) & He).
    exists (p ++ [c]). split; [by apply walk_snoc with c'|].
    split; [apply last_snoc|]. rewrite length_app. simpl. lia.
Qed.

(** ** The inner loop of [bfs] *)

Lemma extend_queue goal path ns queue queue' :
  extend goal path ns queue = inr queue' →
  (goal ∉ ns) ∧ queue' = queue ++ map (λ n, path ++ [n]) ns.
Proof.
  revert queue. induction ns as [|n ns IH]; intros queue Hext; simpl in *.
  - injection Hext as <-. split; [apply not_elem_of_nil|].
    by rewrite app_nil_r.
  - destruct (Z.eqb_spec n goal) as [->|Hne]; [done|].
    apply IH in Hext as [Hout ->]. split.
    + intros Hin. apply elem_of_cons in Hin as [?|?]; [congruence|done].
    + by rewrite <- app_assoc.
Qed.

Lemma extend_found goal path ns queue new_path :
  extend goal path ns queue = inl new_path →
  goal ∈ ns ∧ new_path = path ++ [goal].
Proof.
  revert queue. induction ns as [|n ns IH]; intros queue Hext; simpl in *;
    [done|].
  destruct (Z.eqb_spec n goal) as [->|Hne].
  - injection Hext as <-. split; [left|done].
  - apply IH in Hext as [Hin ->]. split; [by right|done].
Qed.

(** ** The invariant of the search *)

Section Search.
Variable alist : gmap Z (list Z).
Variable goal : Z.

Lemma bfs_inv_start : bfs_inv alist goal 0 [[0]] [].
Proof.
  split.
  - intros q Hq. apply list_elem_of_singleton in Hq as ->.
    split; [done|constructor].
  - exists [[0]], []. repeat split; by repeat constructor.
  - intros j c Hj. lia.
  - intros c Hc. apply reach_zero in Hc as ->. right.
    exists [0]. split; [by left|done].
  - intros v n Hv. by apply elem_of_nil in Hv.
  - intros v Hv. by apply elem_of_nil in Hv.
Qed.

(** Once the paths of [k] edges are used up, those of [k + 1] edges are
    at the front. *)
Lemma bfs_inv_next_level k queue visited :
  bfs_inv alist goal k queue visited →
  Forall (λ q, length q = S (S k)) queue →
  bfs_inv alist goal (S k) queue visited.
Proof.
  intros [Hw Hlv Hb Hl Hc Hg] Hall.
  assert (∀ c, reach alist k c → c ∈ visited) as Hl'.
  { intros c Hr. destruct (Hl c Hr) as [?|(q & Hq & Hlen & _)]; [done|].
    rewrite Forall_forall in Hall. specialize (Hall q Hq). lia. }
  split; try done.
  - exists queue, []. rewrite app_nil_r. by repeat split.
  - intros j c Hj Hr. destruct (decide (j = k)) as [->|Hne]; [by apply Hl'|].
    apply (Hb j); [lia|done].
  - intros c Hr. apply reach_succ in Hr as (c' & Hr' & He).
    destruct (Hc c' c (Hl' c' Hr') He) as [?|(q & Hq & Hlast)]; [by left|].
    right. exists q. rewrite Forall_forall in Hall. by repeat split; auto.
Qed.

(** The path at the front of the queue can be taken to have [k] edges. *)
Lemma bfs_inv_front k path queue visited :
  bfs_inv alist goal k (path :: queue) visited →
  ∃ k', bfs_inv alist goal k' (path :: queue) visited ∧ length path = S k'.
Proof.
  intros Hinv. destruct (inv_levels _ _ _ _ _ Hinv) as (q1 & q2 & Heq & H1 & H2).
  destruct q1 as [|p q1].
  - simpl in Heq. subst q2. exists (S k). split.
    + by apply bfs_inv_next_level.
    + by inversion H2.
  - simpl in Heq. injection Heq as <- ->. exists k. split; [done|].
    by inversion H1.
Qed.

Lemma bfs_inv_levels_tail k path queue :
  length path = S k →
  (∃ q1 q2, path :: queue = q1 ++ q2 ∧
     Forall (λ q : list Z, length q = S k) q1 ∧
     Forall (λ q : list Z, length q = S (S k)) q2) →
  ∃ q1 q2, queue = q1 ++ q2 ∧
     Forall (λ q : list Z, length q = S k) q1 ∧
     Forall (λ q : list Z, length q = S (S k)) q2.
Proof.
  intros Hlen (q1 & q2 & Heq & H1 & H2). destruct q1 as [|p q1].
  - simpl in Heq. subst q2. inversion H2; subst. lia.
  - simpl in Heq. injection Heq as <- ->. exists q1, q2.
    inversion H1; subst. by repeat split.
Qed.

(** The path at the front ends in a visited cell and is dropped. *)
Lemma bfs_inv_skip k path queue visited cell :
  bfs_inv alist goal k (path :: queue) visited →
  length path = S k → last path = Some cell → cell ∈ visited →
  bfs_inv alist goal k queue visited.
Proof.
  intros [Hw Hlv Hb Hl Hc Hg] Hlen Hlast Hvis.
  split; try done.
  - intros q Hq. apply Hw. by right.
  - by apply bfs_inv_levels_tail with path.
  - intros c Hr. destruct (Hl c Hr) as [?|(q & Hq & Hql & Hqlast)]; [by left|].
    apply elem_of_cons in Hq as [->|Hq].
    + left. congruence.
    + right. by exists q.
  - intros v n Hv He.
    destruct (Hc v n Hv He) as [?|(q & Hq & Hqlast)]; [by left|].
    apply elem_of_cons in Hq as [->|Hq].
    + left. congruence.
    + right. by exists q.
Qed.

(** The path at the front ends in a fresh cell, none of whose neighbours
    is the goal: its extensions join the queue and the cell is visited. *)
Lemma bfs_inv_expand k path queue visited cell neighbours :
  bfs_inv alist goal k (path :: queue) visited →
  length path = S k → last path = Some cell →
  alist !! cell = Some neighbours → goal ∉ neighbours →
  bfs_inv alist goal k
    (queue ++ map (λ n, path ++ [n]) neighbours) (visited ++ [cell]).
Proof.
  intros [Hw Hlv Hb Hl Hc Hg] Hlen Hlast Hrow Hgoal.
  split.
  - intros q Hq. apply elem_of_app in Hq as [Hq|Hq].
    + apply Hw. by right.
    + apply list_elem_of_fmap in Hq as (n & -> & Hn).
      apply walk_snoc with cell; [apply Hw; by left|done|].
      by exists neighbours.
  - destruct (bfs_inv_levels_tail k path queue Hlen Hlv)
      as (q1 & q2 & -> & H1 & H2).
    exists q1, (q2 ++ map (λ n, path ++ [n]) neighbours).
    split; [by rewrite app_assoc|]. split; [done|].
    apply Forall_app. split; [done|].
    apply Forall_forall. intros q Hq.
    apply list_elem_of_fmap in Hq as (n & -> & _).
    rewrite length_app. simpl. lia.
  - intros j c Hj Hr. apply elem_of_app. left. by apply (Hb j).
  - intros c Hr. destruct (Hl c Hr) as [?|(q & Hq & Hql & Hqlast)].
    + left. apply elem_of_app. by left.
    + apply elem_of_cons in Hq as [->|Hq].
      * left. apply elem_of_app. right. apply list_elem_of_singleton.
        congruence.
      * right. exists q. split; [|done]. apply elem_of_app. by left.
  - intros v n Hv He. apply elem_of_app in Hv as [Hv|Hv].
    + destruct (Hc v n Hv He) as [?|(q & Hq & Hqlast)].
      * left. apply elem_of_app. by left.
      * apply elem_of_cons in Hq as [->|Hq].
        -- left. apply elem_of_app. right. apply list_elem_of_singleton.
           congruence.
        -- right. exists q. split; [|done]. apply elem_of_app. by left.
    + apply list_elem_of_singleton in Hv as ->.
      destruct He as (row & Hrow' & Hn).
      assert (row = neighbours) as -> by congruence.
      right. exists (path ++ [n]). split; [|apply last_snoc].
      apply elem_of_app. right. apply list_elem_of_fmap. by exists n.
  - intros v Hv He. apply elem_of_app in Hv as [Hv|Hv]; [by apply (Hg v)|].
    apply list_elem_of_singleton in Hv as ->.
    destruct He as (row & Hrow' & Hn).
    assert (row = neighbours) as -> by congruence. done.
Qed.

(** No walk to the goal has [k] edges or fewer while the invariant holds
    at level [k]. *)
Lemma bfs_inv_goal_far k queue visited j :
  goal ≠ 0 →
  bfs_inv alist goal k queue visited → reach alist j goal → (k < j)%nat.
Proof.
  intros Hgoal Hinv Hr. destruct (decide (k < j)%nat) as [|Hle]; [done|]. exfalso.
  destruct j as [|j].
  - apply reach_zero in Hr. done.
  - apply reach_succ in Hr as (c' & Hr' & He).
    apply (inv_goal _ _ _ _ _ Hinv c'); [|done].
    apply (inv_below _ _ _ _ _ Hinv j); [lia|done].
Qed.

(** A route returned by the loop is a walk to the goal, and no walk to
    the goal has fewer edges. *)
Lemma bfs_loop_shortest fuel k queue visited r :
  bfs_inv alist goal k queue visited →
  bfs_loop fuel alist goal queue visited = Some (Return (Some r)) →
  walk alist r ∧ last r = Some goal ∧ (2 ≤ length r)%nat ∧
  (goal ≠ 0 → ∀ j, reach alist j goal → (length r ≤ S j)%nat).
Proof.
  revert k queue visited.
  induction fuel as [|fuel IH]; intros k queue visited Hinv Hrun; [done|].
  simpl in Hrun. destruct queue as [|path queue]; [done|].
  destruct (last path) as [cell|] eqn:Hlast; [|done].
  apply bfs_inv_front in Hinv as (k' & Hinv & Hlen). clear k.
  case_bool_decide as Hvis.
  { apply (IH k' queue visited); [|done]. by apply bfs_inv_skip with path cell. }
  destruct (alist !! cell) as [neighbours|] eqn:Hrow; [|done].
  destruct (extend goal path neighbours queue) as [new_path|queue'] eqn:Hext.
  - injection Hrun as <-. apply extend_found in Hext as [Hin ->].
    split; [|split; [apply last_snoc|split]].
    + apply walk_snoc with cell; [|done|by exists neighbours].
      apply (inv_walks _ _ _ _ _ Hinv). by left.
    + rewrite length_app. simpl. lia.
    + intros Hgoal j Hj. apply (bfs_inv_goal_far _ _ _ _ Hgoal Hinv) in Hj.
      rewrite length_app. simpl. lia.
  - apply extend_queue in Hext as [Hout ->].
    apply (IH k' (queue ++ map (λ n, path ++ [n]) neighbours)
             (visited ++ [cell])); [|done].
    by apply bfs_inv_expand.
Qed.
End Search.

(** ** The grid: [get_neighbours] and 4-adjacency *)

Lemma elem_of_neighbour_cells s a b :
  b ∈ neighbour_cells s a ↔
  (b = a - cols s ∧ 0 ≤ a - cols s) ∨
  (b = a + cols s ∧ a + cols s < size s) ∨
  (b = a - 1 ∧ a mod cols s ≠ 0) ∨
  (b = a + 1 ∧ (a + 1) mod cols s ≠ 0).
Proof.
  unfold neighbour_cells, get_neighbours.
  destruct (Z.ltb_spec (a - cols s) 0), (Z.geb_spec (a + cols s) (size s)),
    (Z.eqb_spec (a mod cols s) 0), (Z.eqb_spec ((a + 1) mod cols s) 0); simpl;
  rewrite ?elem_of_cons, ?elem_of_nil; intuition lia.
Qed.

(** A cell id is its row times the width plus its column; row and column
    are determined by any such decomposition. *)
Lemma cell_coordinates c a :
  0 < c → a = c * (a / c) + a mod c ∧ 0 ≤ a mod c < c.
Proof.
  intros Hc. split; [apply Z.div_mod; lia|by apply Z.mod_pos_bound].
Qed.

Lemma coordinates_unique c a q r :
  0 < c → a = c * q + r → 0 ≤ r < c → a / c = q ∧ a mod c = r.
Proof.
  intros Hc Ha Hr. split; symmetry.
  - by apply (Z.div_unique_pos _ _ _ r).
  - by apply (Z.mod_unique_pos _ _ q).
Qed.

Lemma neighbour_cells_adjacent4 s a b :
  0 < cols s → size s = rows s * cols s → in_grid s a →
  b ∈ neighbour_cells s a ↔ adjacent4 s a b.
Proof.
  intros Hc Hs Ha. rewrite elem_of_neighbour_cells.
  unfold adjacent4, in_grid, row_of, col_of in *.
  destruct (cell_coordinates (cols s) a Hc) as [Hda Hca].
  destruct (cell_coordinates (cols s) b Hc) as [Hdb Hcb].
  assert (0 ≤ a / cols s < rows s) as Hra.
  { split; [apply Z.div_pos; lia|apply Z.div_lt_upper_bound; lia]. }
  assert ((a + 1) mod cols s ≠ 0 ↔ a mod cols s + 1 < cols s) as Hright.
  { destruct (decide (a mod cols s + 1 < cols s)) as [Hlt|Hge].
    - destruct (coordinates_unique (cols s) (a + 1) (a / cols s)
                  (a mod cols s + 1)) as [_ ->]; lia.
    - destruct (coordinates_unique (cols s) (a + 1) (a / cols s + 1) 0)
        as [_ ->]; lia. }
  rewrite Hright. clear Hright.
  generalize dependent (a / cols s). generalize dependent (a mod cols s).
  intros ca Hca ra Hda Hra.
  split.
  - intros Hb.
    assert (∃ rb cb, b = cols s * rb + cb ∧ 0 ≤ cb < cols s ∧ 0 ≤ b < size s ∧
              ((ra = rb ∧ Z.abs (ca - cb) = 1) ∨
               (ca = cb ∧ Z.abs (ra - rb) = 1))) as (rb & cb & Hb' & Hcb' & Hin & Hadj).
    { clear Hdb Hcb.
      destruct Hb as [[-> H]|[[-> H]|[[-> H]|[-> H]]]].
      - exists (ra - 1), ca. repeat split; lia || nia.
      - exists (ra + 1), ca. repeat split; lia || nia.
      - exists ra, (ca - 1). repeat split; lia || nia.
      - exists ra, (ca + 1). repeat split; lia || nia. }
    destruct (coordinates_unique (cols s) b rb cb) as [-> ->]; [done..|].
    done.
  - intros (_ & Hb & Hadj).
    generalize dependent (b / cols s). generalize dependent (b mod cols s).
    intros cb Hcb rb Hdb Hadj.
    destruct Hadj as [[-> Hcol]|[-> Hrow]].
    + destruct (decide (ca - cb = 1)); [right; right; left|right; right; right];
        split; lia.
    + destruct (decide (ra - rb = 1)); [left|right; left]; split; nia.
Qed.

(** ** The adjacency list *)

(** A row holds the accumulated cells followed by the neighbours that are
    uninfected, and has at most one entry per direction. *)
Lemma free_neighbours_row d ns row0 row :
  free_neighbours d ns row0 = Return row →
  (∀ b, b ∈ row ↔ b ∈ row0 ∨ (b ∈ omap snd ns ∧ d !! b = Some None)) ∧
  (length row ≤ length row0 + length ns)%nat.
Proof.
  revert row0. induction ns as [|[k [n|]] ns IH]; intros row0 Hrun;
    simpl in Hrun.
  - injection Hrun as <-. split; [|simpl; lia].
    intros b. simpl. rewrite elem_of_nil. intuition congruence.
  - destruct (d !! n) as [[g|]|] eqn:Hn; [| |done].
    + apply IH in Hrun as [Hrow Hlen]. split; [|simpl; lia].
      intros b. rewrite Hrow. simpl. rewrite elem_of_cons.
      split; [intuition congruence|].
      intros [?|[[->|?] Hb]]; [|congruence|]; intuition congruence.
    + apply IH in Hrun as [Hrow Hlen]. split.
      * intros b. rewrite Hrow. simpl.
        rewrite elem_of_app, list_elem_of_singleton, elem_of_cons.
        split; [intuition congruence|].
        intros [?|[[->|?] Hb]]; intuition congruence.
      * rewrite length_app in Hlen. simpl in *. lia.
  - apply IH in Hrun as [Hrow Hlen]. split; [|simpl; lia].
    intros b. by rewrite Hrow.
Qed.

Lemma bind_Return {A B : Type} (m : Except A) (f : A → Except B) b :
  m ≫= f = Return b → ∃ a, m = Return a ∧ f a = Return b.
Proof. destruct m as [a|e]; [by exists a|done]. Qed.

(** The keys of the adjacency list are the uninfected keys visited; each
    row is the one computed by the inner loop for its key. *)
Lemma adjacency_loop_rows s keys alist0 alist :
  adjacency_loop s keys alist0 = Return alist →
  ∀ a,
    (a ∈ keys → uninfected s a →
     ∃ row, free_neighbours (infected s) (get_neighbours s a) [] = Return row ∧
            alist !! a = Some row) ∧
    (¬ (a ∈ keys ∧ uninfected s a) → alist !! a = alist0 !! a).
Proof.
  revert alist0. induction keys as [|pos keys IH]; intros alist0 Hrun a;
    cbn [adjacency_loop] in Hrun.
  - injection Hrun as <-. split; [by intros ?%elem_of_nil|done].
  - destruct (infected s !! pos) as [[g|]|] eqn:Hpos.
    + destruct (IH _ Hrun a) as [Hin Hout]. split.
      * intros Ha Hfree. apply elem_of_cons in Ha as [->|Ha]; [|by apply Hin].
        unfold uninfected in Hfree. congruence.
      * intros Hno. apply Hout. intros [Ha ?]. apply Hno. split; [by right|done].
    + apply bind_Return in Hrun as (row & Hrow & Hrun).
      destruct (IH _ Hrun a) as [Hin Hout]. split.
      * intros Ha Hfree.
        destruct (decide (a ∈ keys)) as [Hk|Hk]; [by apply Hin|].
        apply elem_of_cons in Ha as [->|Ha]; [|done].
        exists row. split; [done|]. rewrite Hout by intuition congruence.
        apply lookup_insert_eq.
      * intros Hno. rewrite Hout.
        -- apply lookup_insert_ne. intros <-. apply Hno.
           split; [by left|done].
        -- intros [Ha ?]. apply Hno. split; [by right|done].
    + destruct (IH _ Hrun a) as [Hin Hout]. split.
      * intros Ha Hfree. apply elem_of_cons in Ha as [->|Ha]; [|by apply Hin].
        unfold uninfected in Hfree. congruence.
      * intros Hno. apply Hout. intros [Ha ?]. apply Hno. split; [by right|done].
Qed.

(** The adjacency list returned for an object: a key is an uninfected
    cell of the grid, and its row lists its uninfected neighbours. *)
Lemma adjacency_list_rows s alist :
  adjacency_list s = Return alist →
  (∀ a, in_grid s a → uninfected s a → is_Some (alist !! a)) ∧
  (∀ a row, alist !! a = Some row →
     in_grid s a ∧ uninfected s a ∧ (length row ≤ 4)%nat ∧
     ∀ b, b ∈ row ↔ b ∈ neighbour_cells s a ∧ uninfected s b).
Proof.
  intros Hrun. unfold adjacency_list in Hrun.
  pose proof (adjacency_loop_rows s _ _ _ Hrun) as Hrows.
  assert (∀ a, a ∈ seqZ 0 (size s) ↔ in_grid s a) as Hkeys.
  { intros a. rewrite elem_of_seqZ. unfold in_grid. lia. }
  split.
  - intros a Ha Hfree. destruct (Hrows a) as [Hin _].
    destruct Hin as (row & _ & ->); [by apply Hkeys|done|by eexists].
  - intros a row Harow. destruct (Hrows a) as [Hin Hout].
    destruct (decide (a ∈ seqZ 0 (size s) ∧ infected s !! a = Some None))
      as [[Ha Hfree]|Hno].
    + destruct (Hin Ha Hfree) as (row' & Hrow' & Harow').
      assert (row' = row) as -> by congruence.
      apply free_neighbours_row in Hrow' as [Hmem Hlen].
      split; [by apply Hkeys|]. split; [done|]. split; [simpl in Hlen; lia|].
      intros b. rewrite Hmem, elem_of_nil. unfold neighbour_cells, uninfected.
      intuition congruence.
    + rewrite (Hout Hno), lookup_empty in Harow. done.
Qed.

(** ** Shortest routes *)

Section Routes.
Variable s : Infection.
Variable alist : gmap Z (list Z).
Hypothesis cols_positive : 0 < cols s.
Hypothesis size_is_area : size s = rows s * cols s.
Hypothesis alist_of_s : adjacency_list s = Return alist.

(** The edges of the adjacency list are the pairs of 4-adjacent
    uninfected cells. *)
Lemma edge_adjacent4 a b :
  edge alist a b ↔ uninfected s a ∧ uninfected s b ∧ adjacent4 s a b.
Proof.
  destruct (adjacency_list_rows s alist alist_of_s) as [Hkeys Hrows].
  split.
  - intros (row & Hrow & Hb).
    destruct (Hrows a row Hrow) as (Ha & Hfree & _ & Hmem).
    apply Hmem in Hb as [Hb Hfreeb]. split; [done|]. split; [done|].
    by apply neighbour_cells_adjacent4.
  - intros (Hfree & Hfreeb & Hadj).
    assert (in_grid s a) as Ha by apply Hadj.
    destruct (Hkeys a Ha Hfree) as [row Hrow]. exists row. split; [done|].
    destruct (Hrows a row Hrow) as (_ & _ & _ & Hmem). apply Hmem.
    split; [|done]. by apply neighbour_cells_adjacent4.
Qed.

Lemma linked_edges_free l :
  linked (edge alist) l → (2 ≤ length l)%nat →
  Forall (uninfected s) l ∧ linked (adjacent4 s) l.
Proof.
  induction 1 as [c|a b l Hab Hl IH]; intros Hlen; [simpl in Hlen; lia|].
  apply edge_adjacent4 in Hab as (Ha & Hb & Hadj).
  destruct l as [|c l].
  - split; [by repeat constructor|]. apply linked_cons; [done|constructor].
  - destruct IH as [Hall Hlink]; [simpl; lia|].
    split; [by constructor|by apply linked_cons].
Qed.

Lemma linked_free_edges l :
  linked (adjacent4 s) l → Forall (uninfected s) l → linked (edge alist) l.
Proof.
  induction 1 as [c|a b l Hab Hl IH]; intros Hall; [constructor|].
  inversion Hall as [|? ? Ha Hall']; subst.
  apply linked_cons; [|by apply IH].
  apply edge_adjacent4. split; [done|]. split; [|done].
  by inversion Hall'.
Qed.

(** A grid of one cell has no pair of adjacent cells. *)
Lemma single_cell_no_adjacent a b : size s = 1 → ¬ adjacent4 s a b.
Proof.
  intros Hone (Ha & Hb & Hadj). unfold in_grid in *.
  assert (a = 0) as -> by lia. assert (b = 0) as -> by lia.
  destruct Hadj as [[_ Habs]|[_ Habs]]; by rewrite Z.sub_diag in Habs.
Qed.
End Routes.

(** C3. When [bfs] returns a route, the route starts at cell 0, ends at
    cell [size - 1], consists of uninfected cells, any two consecutive
    cells are 4-adjacent, and no sequence with these properties is
    shorter. *)
Theorem bfs_route_shortest s r :
  0 < cols s → size s = rows s * cols s →
  bfs s = Return (Some r) →
  free_route s r ∧ ∀ l, free_route s l → (length r ≤ length l)%nat.
Proof.
  intros Hcols Hsize Hrun. unfold bfs in Hrun.
  apply bind_Return in Hrun as (alist & Halist & Hrun).
  destruct (bfs_loop (bfs_fuel alist) alist (size s - 1) [[0]] [])
    as [res|] eqn:Hloop; [|done]. subst res.
  destruct (bfs_loop_shortest alist (size s - 1) _ 0 _ _ r
              (bfs_inv_start alist (size s - 1)) Hloop)
    as ([Hhead Hlink] & Hlast & Hlen & Hshort).
  destruct (linked_edges_free s alist Hcols Hsize Halist r Hlink Hlen)
    as [Hfree Hadj].
  split; [done|]. intros l (Hh & Hl & Hfreel & Hadjl).
  assert (size s - 1 ≠ 0) as Hgoal.
  { intros Hone. destruct Hadj as [c|a b p Hab _]; [simpl in Hlen; lia|].
    apply (single_cell_no_adjacent s a b); [lia|done]. }
  assert (l ≠ []) as Hne by (by intros ->).
  destruct (length l) as [|j] eqn:Hj; [by destruct l|].
  apply (Hshort Hgoal j). exists l. split; [|done].
  split; [done|]. by apply (linked_free_edges s alist Hcols Hsize Halist).
Qed.

Lemma bfs_route_shortest_witness :
  free_route (Infection_init 2 2 0 0 0) [0; 2; 3] ∧
  ∀ l, free_route (Infection_init 2 2 0 0 0) l → (3 ≤ length l)%nat.
Proof.
  apply (bfs_route_shortest (Infection_init 2 2 0 0 0) [0; 2; 3]).
  - reflexivity.
  - reflexivity.
  - vm_compute. reflexivity.
Defined.

(** ** Termination of the search *)

Lemma extend_length goal path ns queue queue' :
  extend goal path ns queue = inr queue' →
  length queue' = (length queue + length ns)%nat.
Proof.
  intros Hext. apply extend_queue in Hext as [_ ->].
  by rewrite length_app, length_map.
Qed.

Lemma unvisited_shrinks (alist : gmap Z (list Z)) (visited : list Z) cell :
  is_Some (alist !! cell) → cell ∉ visited →
  base.size (dom alist ∖ list_to_set visited) =
    S (base.size (dom alist ∖ list_to_set (visited ++ [cell]))).
Proof.
  intros Hkey Hnew.
  assert (dom alist ∖ list_to_set (visited ++ [cell]) =
          (dom alist ∖ list_to_set visited) ∖ ({[cell]} : gset Z)) as ->.
  { apply set_eq. intros x.
    rewrite !elem_of_difference, !elem_of_list_to_set, elem_of_app,
      list_elem_of_singleton, elem_of_singleton.
    intuition congruence. }
  assert (({[cell]} : gset Z) ⊆ dom alist ∖ list_to_set visited) as Hsub.
  { apply singleton_subseteq_l, elem_of_difference.
    split; [by apply elem_of_dom|by rewrite elem_of_list_to_set]. }
  rewrite (size_difference _ _ Hsub), size_singleton.
  apply subseteq_size in Hsub. rewrite size_singleton in Hsub. lia.
Qed.

(** The loop ends within the fuel: every pass takes one path from the
    queue, and a pass that visits a new key adds at most four. *)
Lemma bfs_loop_enough_fuel alist goal fuel queue visited :
  (∀ a row, alist !! a = Some row → (length row ≤ 4)%nat) →
  (length queue + 5 * base.size (dom alist ∖ list_to_set visited) < fuel)%nat →
  is_Some (bfs_loop fuel alist goal queue visited).
Proof.
  intros Hrows. revert queue visited.
  induction fuel as [|fuel IH]; intros queue visited Hfuel; [lia|].
  simpl. destruct queue as [|path queue]; [by eexists|].
  destruct (last path) as [cell|]; [|by eexists].
  case_bool_decide as Hvis.
  { apply IH. simpl in Hfuel. lia. }
  destruct (alist !! cell) as [neighbours|] eqn:Hrow; [|by eexists].
  destruct (extend goal path neighbours queue) as [new_path|queue'] eqn:Hext;
    [by eexists|].
  apply IH. apply extend_length in Hext. apply Hrows in Hrow as Hlen.
  rewrite (unvisited_shrinks alist visited cell) in Hfuel by eauto.
  simpl in Hfuel. lia.
Qed.

(** The search of [bfs] always ends: it returns a route, returns [None],
    or raises, and never exhausts the fuel of the model. *)
Lemma bfs_loop_terminates s alist :
  adjacency_list s = Return alist →
  is_Some (bfs_loop (bfs_fuel alist) alist (size s - 1) [[0]] []).
Proof.
  intros Halist. apply bfs_loop_enough_fuel.
  - intros a row Hrow.
    destruct (adjacency_list_rows s alist Halist) as [_ Hrows].
    by destruct (Hrows a row Hrow) as (_ & _ & Hlen & _).
  - unfold bfs_fuel. simpl.
    assert (dom alist ∖ (∅ : gset Z) = dom alist) as ->.
    { apply set_eq. intros x. rewrite elem_of_difference, elem_of_empty.
      intuition. }
    lia.
Qed.

(** ** The grid of one cell *)

Lemma single_cell_adjacency_list s :
  cols s = 1 → size s = 1 → infected s !! 0 = Some None →
  adjacency_list s = Return {[0 := []]}.
Proof.
  intros Hcols Hsize Hfree. unfold adjacency_list. rewrite Hsize.
  change (seqZ 0 1) with [0]. cbn [adjacency_loop]. rewrite Hfree.
  unfold get_neighbours. rewrite Hcols, Hsize. reflexivity.
Qed.

(** C10. On a grid of one cell, where the start cell is the goal cell and
    is uninfected, the search ends with the fuel unspent and returns
    [None], and [compute_path] reports that no path was found: the route
    made of cell 0 alone is not returned. *)
Theorem single_cell_grid_no_route s :
  rows s = 1 → cols s = 1 → size s = 1 → infected s !! 0 = Some None →
  bfs_loop (bfs_fuel {[0 := []]}) {[0 := []]} (size s - 1) [[0]] []
    = Some (Return None) ∧
  bfs s = Return None ∧
  compute_path s = Return (set_route None s, NoPath).
Proof.
  intros _ Hcols Hsize Hfree.
  assert (bfs s = Return None) as Hbfs.
  { unfold bfs. rewrite single_cell_adjacency_list by done.
    rewrite Hsize. reflexivity. }
  split; [by rewrite Hsize|]. split; [done|].
  unfold compute_path. by rewrite Hbfs.
Qed.

Lemma single_cell_grid_no_route_witness :
  bfs (Infection_init 1 1 0 1 3) = Return None ∧
  compute_path (Infection_init 1 1 0 1 3)
    = Return (set_route None (Infection_init 1 1 0 1 3), NoPath).
Proof.
  apply (single_cell_grid_no_route (Infection_init 1 1 0 1 3));
    reflexivity.
Defined.

(** ** Printed coordinates *)

(** C4. On a grid of one row and five columns without infection the route
    is [0; 1; 2; 3; 4], and [compute_path] prints (0,0), (1,1), (2,2),
    (3,3), (4,4): the row index is [pos / rows], not [pos / cols], so the
    cells of row 0 are not reported as the straight line of row 0. *)
Theorem coordinates_divide_by_rows rs risk :
  ∃ w, main rs 1 5 0 risk 0
       = Ok (w, Coordinates [(0, 0); (1, 1); (2, 2); (3, 3); (4, 4)]) ∧
       route (self w) = Some [0; 1; 2; 3; 4] ∧
       coordinate (self w) 4 = (4, 4) ∧
       (4 / cols (self w), 4 mod cols (self w)) = (0, 4).
Proof. eexists. split; [reflexivity|]. by repeat split. Qed.

(** ** The keys of the dictionary *)

Lemma infect_keys rs pos r w :
  keys_in_grid (self w) → in_grid (self w) pos →
  keys_in_grid (self (infect rs pos r w)).
Proof.
  intros (Hc & Hs & Hk) Hpos. unfold keys_in_grid, in_grid.
  destruct (infect_setup rs pos r w) as [(-> & -> & -> & _) _].
  rewrite infect_dom by (by apply Hk). done.
Qed.

Lemma infect_cells_keys rs (ns : list (string * option Z)) w :
  keys_in_grid (self w) →
  (∀ n, n ∈ omap snd ns → in_grid (self w) n) →
  keys_in_grid
    (self (foldl (λ w' kn, match snd kn with
                           | Some n => infect rs n None w'
                           | None => w'
                           end) w ns)).
Proof.
  revert w. induction ns as [|[k [n|]] ns IH]; intros w Hw Hns; simpl; [done|..].
  - apply IH.
    + apply infect_keys; [done|]. apply Hns. simpl. by left.
    + intros n' Hn'. unfold in_grid.
      destruct (infect_setup rs n None w) as [(_ & _ & -> & _) _].
      apply Hns. simpl. by right.
  - by apply IH.
Qed.

Lemma visit_keys rs w pos :
  keys_in_grid (self w) → in_grid (self w) pos →
  keys_in_grid (self (visit rs w pos)).
Proof.
  intros Hw Hpos. unfold visit. destruct (transmits w pos); [|done].
  apply infect_cells_keys; [done|]. intros n Hn.
  destruct Hw as (Hc & Hs & _).
  apply (neighbour_cells_adjacent4 (self w) pos n Hc Hs Hpos) in Hn.
  apply Hn.
Qed.

Lemma visits_keys rs ps w :
  keys_in_grid (self w) → (∀ pos, pos ∈ ps → in_grid (self w) pos) →
  keys_in_grid (self (foldl (visit rs) w ps)).
Proof.
  revert w. induction ps as [|p ps IH]; intros w Hw Hps; simpl; [done|].
  apply IH.
  - apply visit_keys; [done|]. apply Hps. by left.
  - intros pos Hpos. unfold in_grid.
    destruct (visits_generation rs [p] w) as [_ (_ & _ & Hsz & _)].
    simpl in Hsz. rewrite Hsz. apply Hps. by right.
Qed.

Lemma round_keys rs w :
  keys_in_grid (self w) → keys_in_grid (self (round rs w)).
Proof.
  intros Hw. apply visits_keys; [done|].
  intros pos Hpos. apply elem_of_seqZ in Hpos. unfold in_grid. simpl. lia.
Qed.

Lemma propagate_loop_keys rs fuel w :
  keys_in_grid (self w) → keys_in_grid (self (propagate_loop rs fuel w)).
Proof.
  revert w. induction fuel as [|fuel IH]; intros w Hw; simpl; [done|].
  destruct (_ <? _); [|done]. by apply IH, round_keys.
Qed.

Lemma spawn_loop_keys rs n (positions : gset Z) w :
  keys_in_grid (self w) → positions ⊆ dom (infected (self w)) →
  keys_in_grid (self (world_of (spawn_loop rs n positions w))).
Proof.
  revert positions w. induction n as [|n IH]; intros positions w Hw Hsub;
    cbn [spawn_loop]; [done|].
  destruct (random_choice rs (draws w) (elements positions)) as [p|] eqn:Hp;
    [|done].
  apply random_choice_elem, elem_of_elements, Hsub in Hp.
  set (w1 := {| self := self w; draws := S (draws w) |}).
  cbv zeta. fold w1. apply IH.
  - apply infect_keys; [done|]. by apply Hw.
  - rewrite (infect_dom rs p (Some (float_of_Z 1)) w1) by done. simpl.
    etrans; [|exact Hsub]. apply subseteq_difference_l. done.
Qed.

(** No method adds or removes a key: throughout a run on valid arguments
    the keys of [self.infected] are the cells [0 .. rows * cols - 1]. *)
Lemma reachable_keys rs rows cols seed risk iterations :
  check_args rows cols seed risk iterations = true →
  let w0 := start_world rows cols seed risk iterations in
  keys_in_grid (self (world_of (spawn rs w0))) ∧
  ∀ w1, spawn rs w0 = Ok w1 →
    ∀ fuel, keys_in_grid (self (propagate_loop rs fuel w1)).
Proof.
  intros Hargs w0.
  destruct (check_args_range _ _ _ _ _ Hargs) as (Hr & Hc & _).
  assert (keys_in_grid (self w0)) as Hw0.
  { split; [done|]. split; [done|]. intros c. apply init_infected_dom. }
  assert (keys_in_grid (self (world_of (spawn rs w0)))) as Hspawn.
  { unfold spawn. destruct (seed_count (self w0)); [|done].
    apply spawn_loop_keys; [done|]. apply subseteq_difference_l. done. }
  split; [done|]. intros w1 Hw1 fuel. rewrite Hw1 in Hspawn.
  by apply propagate_loop_keys.
Qed.

(** * Further properties of the code *)

(** ** The argument checks and [__init__] *)

(** X2. A new object has generation 0, no route, and a dictionary whose
    keys are exactly the cells [0 .. rows * cols - 1], each holding
    [None]: no cell is infected. *)
Theorem init_all_uninfected rows cols seed risk iterations :
  let s := Infection_init rows cols seed risk iterations in
  generation s = 0 ∧ route s = None ∧ size s = rows * cols ∧
  (∀ c, infected s !! c =
          if bool_decide (0 ≤ c < rows * cols) then Some None else None) ∧
  infected_cells s = ∅.
Proof.
  simpl. repeat split; [apply init_infected_lookup|].
  apply set_eq. intros c. rewrite elem_of_infected_cells. simpl.
  rewrite init_infected_lookup, elem_of_empty.
  split; [|done]. intros [g Hg]. by case_bool_decide.
Qed.

(** ** [get_neighbours] *)

(** X3. For a cell of the grid, the neighbours that are not [None] are
    exactly the cells of the grid that are 4-adjacent to it: one row up or
    down in the same column, or one column left or right in the same
    row. *)
Theorem get_neighbours_four_adjacent s a b :
  0 < cols s → size s = rows s * cols s → in_grid s a →
  b ∈ neighbour_cells s a ↔ adjacent4 s a b.
Proof. apply neighbour_cells_adjacent4. Qed.

Lemma get_neighbours_four_adjacent_witness :
  4 ∈ neighbour_cells (Infection_init 2 3 0 0 0) 1 ↔
  adjacent4 (Infection_init 2 3 0 0 0) 1 4.
Proof.
  apply (get_neighbours_four_adjacent (Infection_init 2 3 0 0 0) 1 4).
  - reflexivity.
  - reflexivity.
  - unfold in_grid. simpl. lia.
Defined.

Lemma adjacent4_sym s a b : adjacent4 s a b → adjacent4 s b a.
Proof.
  intros (Ha & Hb & Hadj). split; [done|]. split; [done|].
  destruct Hadj as [[Hr Hc]|[Hc Hr]]; [left|right];
    (split; [done|]); rewrite <- Z.abs_opp; rewrite Z.opp_sub_distr;
    by rewrite Z.add_comm, Z.add_opp_r.
Qed.

(** X4. Within the grid [get_neighbours] is symmetric, never lists the
    cell itself, lists no cell twice, and lists only cells of the grid. *)
Theorem get_neighbours_symmetric s a b :
  0 < cols s → size s = rows s * cols s → in_grid s a →
  NoDup (neighbour_cells s a) ∧ (a ∉ neighbour_cells s a) ∧
  (b ∈ neighbour_cells s a → in_grid s b ∧ a ∈ neighbour_cells s b).
Proof.
  intros Hc Hs Ha. split; [|split].
  - assert (a mod cols s ≠ 0 → cols s ≠ 1) as Hleft.
    { intros Hm Hone. by rewrite Hone, Z.mod_1_r in Hm. }
    assert ((a + 1) mod cols s ≠ 0 → cols s ≠ 1) as Hright.
    { intros Hm Hone. by rewrite Hone, Z.mod_1_r in Hm. }
    unfold neighbour_cells, get_neighbours.
    generalize dependent (a mod cols s).
    generalize dependent ((a + 1) mod cols s).
    intros right Hright left Hleft.
    destruct (Z.ltb_spec (a - cols s) 0), (Z.geb_spec (a + cols s) (size s)),
      (Z.eqb_spec left 0), (Z.eqb_spec right 0);
      simpl;
      repeat (apply NoDup_cons; split;
              [rewrite ?elem_of_cons, ?elem_of_nil; lia|]);
      apply NoDup_nil_2.
  - rewrite elem_of_neighbour_cells. lia.
  - intros Hb. apply (neighbour_cells_adjacent4 s a b Hc Hs Ha) in Hb.
    assert (in_grid s b) as Hgb by apply Hb. split; [done|].
    apply (neighbour_cells_adjacent4 s b a Hc Hs Hgb).
    by apply adjacent4_sym.
Qed.

Lemma get_neighbours_symmetric_witness :
  NoDup (neighbour_cells (Infection_init 3 3 0 0 0) 4) ∧
  (4 ∉ neighbour_cells (Infection_init 3 3 0 0 0) 4) ∧
  (1 ∈ neighbour_cells (Infection_init 3 3 0 0 0) 4 →
   in_grid (Infection_init 3 3 0 0 0) 1 ∧
   4 ∈ neighbour_cells (Infection_init 3 3 0 0 0) 1).
Proof.
  apply (get_neighbours_symmetric (Infection_init 3 3 0 0 0) 4 1).
  - reflexivity.
  - reflexivity.
  - unfold in_grid. simpl. lia.
Defined.

(** ** [adjacency_list] on a well-formed object *)

Lemma free_neighbours_total (d : gmap Z (option Z)) ns row0 :
  (∀ n, n ∈ omap snd ns → is_Some (d !! n)) →
  ∃ row, free_neighbours d ns row0 = Return row.
Proof.
  revert row0. induction ns as [|[k [n|]] ns IH]; intros row0 Hkeys; simpl.
  - by eexists.
  - destruct (Hkeys n) as [[g|] ->]; [simpl; by left|..];
      apply IH; intros n' Hn'; apply Hkeys; simpl; by right.
  - apply IH. intros n' Hn'. by apply Hkeys.
Qed.

Lemma adjacency_loop_total s keys alist0 :
  keys_in_grid s → (∀ pos, pos ∈ keys → in_grid s pos) →
  ∃ alist, adjacency_loop s keys alist0 = Return alist.
Proof.
  intros (Hc & Hs & Hk). revert alist0.
  induction keys as [|pos keys IH]; intros alist0 Hkeys;
    cbn [adjacency_loop]; [by eexists|].
  assert (∀ p, p ∈ keys → in_grid s p) as Hrest
    by (intros p Hp; apply Hkeys; by right).
  destruct (infected s !! pos) as [[g|]|]; [by apply IH| |by apply IH].
  destruct (free_neighbours_total (infected s) (get_neighbours s pos) [])
    as [row ->]; [|by apply (IH (<[pos := row]> alist0))].
  intros n Hn. apply elem_of_dom, Hk.
  assert (in_grid s pos) as Hpos by (apply Hkeys; by left).
  apply (neighbour_cells_adjacent4 s pos n Hc Hs Hpos) in Hn. apply Hn.
Qed.

Lemma adjacency_list_returns s :
  keys_in_grid s →
  ∃ alist, adjacency_list s = Return alist ∧
    (∀ a, is_Some (alist !! a) ↔ in_grid s a ∧ uninfected s a) ∧
    (∀ a b, edge alist a b ↔
            uninfected s a ∧ uninfected s b ∧ adjacent4 s a b) ∧
    (∀ a b, edge alist a b → edge alist b a).
Proof.
  intros Hkeys.
  destruct (adjacency_loop_total s (seqZ 0 (size s)) ∅ Hkeys) as [alist Hal].
  { intros pos Hpos. apply elem_of_seqZ in Hpos. unfold in_grid. lia. }
  destruct Hkeys as (Hc & Hs & _).
  exists alist. split; [done|].
  destruct (adjacency_list_rows s alist Hal) as [Hdom Hrows].
  split; [|split].
  - intros a. split.
    + intros [row Hrow]. destruct (Hrows a row Hrow) as (? & ? & _). done.
    + intros [Ha Hfree]. by apply Hdom.
  - intros a b. by apply edge_adjacent4.
  - intros a b Hab. apply (edge_adjacent4 s alist Hc Hs Hal) in Hab.
    apply (edge_adjacent4 s alist Hc Hs Hal).
    destruct Hab as (Ha & Hb & Hadj). auto using adjacent4_sym.
Qed.

(** X5. When the keys of the dictionary are the cells of the grid,
    [adjacency_list] returns without a [KeyError]; its keys are the
    uninfected cells, its edges are the pairs of 4-adjacent uninfected
    cells, and every edge is listed in both directions. *)
Theorem adjacency_list_total s :
  keys_in_grid s →
  ∃ alist, adjacency_list s = Return alist ∧
    (∀ a, is_Some (alist !! a) ↔ in_grid s a ∧ uninfected s a) ∧
    (∀ a b, edge alist a b ↔
            uninfected s a ∧ uninfected s b ∧ adjacent4 s a b) ∧
    (∀ a b, edge alist a b → edge alist b a).
Proof. apply adjacency_list_returns. Qed.

Lemma adjacency_list_total_witness :
  ∃ alist, adjacency_list (Infection_init 2 2 0 0 0) = Return alist ∧
           ∀ a b, edge alist a b → edge alist b a.
Proof.
  destruct (adjacency_list_total (Infection_init 2 2 0 0 0))
    as (alist & Hal & _ & _ & Hsym).
  - split; [reflexivity|]. split; [reflexivity|].
    intros c. apply init_infected_dom.
  - exists alist. split; [exact Hal|exact Hsym].
Defined.

(** ** What [bfs] returns when there is no route *)

Section Exhaustive.
Variable alist : gmap Z (list Z).
Variable goal : Z.
Hypothesis start_is_key : is_Some (alist !! 0).
Hypothesis edges_closed : ∀ a b, edge alist a b → is_Some (alist !! b).

(** The last cell of a walk is a key of the adjacency list. *)
Lemma reach_key k c : reach alist k c → is_Some (alist !! c).
Proof.
  destruct k as [|k]; intros Hr.
  - apply reach_zero in Hr as ->. done.
  - apply reach_succ in Hr as (c' & _ & He). by apply edges_closed with c'.
Qed.

Lemma walk_last_key p : walk alist p → ∃ c, last p = Some c ∧ is_Some (alist !! c).
Proof.
  intros Hw. destruct (last p) as [c|] eqn:Hlast.
  - exists c. split; [done|]. destruct p as [|a p]; [done|].
    apply (reach_key (length p)). by exists (a :: p).
  - destruct Hw as [_ Hl]. apply linked_nonempty in Hl.
    by apply last_None in Hlast.
Qed.

(** With an empty queue every cell that a walk reaches is visited. *)
Lemma bfs_inv_exhausted k visited j c :
  bfs_inv alist goal k [] visited → reach alist j c → c ∈ visited.
Proof.
  intros Hinv. revert c. induction j as [|j IH]; intros c Hr.
  - destruct (decide (0 < k)%nat) as [Hk|Hk].
    + by apply (inv_below _ _ _ _ _ Hinv 0%nat).
    + assert (k = 0)%nat as -> by lia.
      destruct (inv_level _ _ _ _ _ Hinv c Hr) as [?|(q & Hq & _)]; [done|].
      by apply elem_of_nil in Hq.
  - apply reach_succ in Hr as (c' & Hr' & He).
    destruct (inv_children _ _ _ _ _ Hinv c' c (IH c' Hr') He)
      as [?|(q & Hq & _)]; [done|].
    by apply elem_of_nil in Hq.
Qed.

(** The loop raises nothing, and when it returns [None] no walk reaches
    the goal. *)
Lemma bfs_loop_exhaustive fuel k queue visited res :
  bfs_inv alist goal k queue visited →
  bfs_loop fuel alist goal queue visited = Some res →
  match res with
  | Return (Some r) => True
  | Return None => goal ≠ 0 → ∀ j, ¬ reach alist j goal
  | Raise _ => False
  end.
Proof.
  revert k queue visited.
  induction fuel as [|fuel IH]; intros k queue visited Hinv Hrun; [done|].
  simpl in Hrun. destruct queue as [|path queue].
  - injection Hrun as <-. intros Hgoal j Hr.
    destruct j as [|j]; [by apply reach_zero in Hr|].
    apply reach_succ in Hr as (c' & Hr' & He).
    apply (inv_goal _ _ _ _ _ Hinv c'); [|done].
    by apply (bfs_inv_exhausted k visited j).
  - destruct (walk_last_key path) as (cell & Hlast & [row Hrow]).
    { apply (inv_walks _ _ _ _ _ Hinv). by left. }
    rewrite Hlast in Hrun.
    apply bfs_inv_front in Hinv as (k' & Hinv & Hlen). clear k.
    case_bool_decide as Hvis.
    { apply (IH k' queue visited); [|done].
      by apply bfs_inv_skip with path cell. }
    rewrite Hrow in Hrun.
    destruct (extend goal path row queue) as [new_path|queue'] eqn:Hext.
    + by injection Hrun as <-.
    + apply extend_queue in Hext as [Hout ->].
      apply (IH k' (queue ++ map (λ n, path ++ [n]) row) (visited ++ [cell]));
        [|done].
      by apply bfs_inv_expand.
Qed.
End Exhaustive.

(** A route returned by [bfs] is a free route of minimal length. *)
Lemma bfs_some_free_route s r :
  0 < cols s → size s = rows s * cols s →
  bfs s = Return (Some r) →
  (2 ≤ length r)%nat ∧ free_route s r ∧
  ∀ l, free_route s l → (length r ≤ length l)%nat.
Proof.
  intros Hcols Hsize Hrun. unfold bfs in Hrun.
  apply bind_Return in Hrun as (alist & Halist & Hrun).
  destruct (bfs_loop (bfs_fuel alist) alist (size s - 1) [[0]] [])
    as [res|] eqn:Hloop; [|done]. subst res.
  destruct (bfs_loop_shortest alist (size s - 1) _ 0 _ _ r
              (bfs_inv_start alist (size s - 1)) Hloop)
    as ([Hhead Hlink] & Hlast & Hlen & Hshort).
  destruct (linked_edges_free s alist Hcols Hsize Halist r Hlink Hlen)
    as [Hfree Hadj].
  split; [done|]. split; [done|]. intros l (Hh & Hl & Hfreel & Hadjl).
  assert (size s - 1 ≠ 0) as Hgoal.
  { intros Hone. destruct Hadj as [c|a b p Hab _]; [simpl in Hlen; lia|].
    apply (single_cell_no_adjacent s a b); [lia|done]. }
  destruct (length l) as [|j] eqn:Hj; [by destruct l|].
  apply (Hshort Hgoal j). exists l. split; [|done].
  split; [done|]. by apply (linked_free_edges s alist Hcols Hsize Halist).
Qed.

Lemma bfs_exhaustive s :
  keys_in_grid s → uninfected s 0 →
  ∃ res, bfs s = Return res ∧
         (size s ≠ 1 → res = None ↔ ¬ ∃ l, free_route s l).
Proof.
  intros Hkeys Hstart.
  destruct (adjacency_list_returns s Hkeys) as (alist & Hal & Hdom & Hedge & _).
  destruct Hkeys as (Hc & Hs & Hk).
  assert (in_grid s 0) as Hgrid0.
  { apply Hk, elem_of_dom. unfold uninfected in Hstart. by rewrite Hstart. }
  destruct (bfs_loop_terminates s alist Hal) as [res Hloop].
  assert (is_Some (alist !! 0)) as Hkey0 by (by apply Hdom).
  assert (∀ a b, edge alist a b → is_Some (alist !! b)) as Hclosed.
  { intros a b Hab. apply Hedge in Hab as (_ & Hb & Hadj).
    apply Hdom. split; [apply Hadj|done]. }
  pose proof (bfs_loop_exhaustive alist (size s - 1) Hkey0 Hclosed _ 0 _ _ res
                (bfs_inv_start alist (size s - 1)) Hloop) as Hres.
  assert (bfs s = res) as Hbfs.
  { unfold bfs. rewrite Hal. unfold mbind, except_bind. by rewrite Hloop. }
  destruct res as [[r|]|e]; [| |done].
  - exists (Some r). split; [done|]. intros _. split; [done|].
    intros Hno. exfalso. apply Hno. exists r.
    by apply (bfs_some_free_route s r Hc Hs).
  - exists None. split; [done|]. intros Hone. split; [|done].
    intros _ [l (Hh & Hl & Hfree & Hadj)].
    destruct (length l) as [|j] eqn:Hj; [by destruct l|].
    apply (Hres ltac:(lia) j). exists l. split; [|done].
    split; [done|]. by apply (linked_free_edges s alist Hc Hs Hal).
Qed.

(** X6. On a well-formed object whose start cell is uninfected, [bfs]
    raises nothing; and on a grid of more than one cell it returns [None]
    exactly when no route of 4-adjacent uninfected cells leads from the
    start corner to the goal corner. *)
Theorem bfs_none_iff_no_route s :
  keys_in_grid s → uninfected s 0 →
  ∃ res, bfs s = Return res ∧
         (size s ≠ 1 → res = None ↔ ¬ ∃ l, free_route s l).
Proof. apply bfs_exhaustive. Qed.

Lemma init_keys_in_grid rows cols seed risk iterations :
  0 < cols → keys_in_grid (Infection_init rows cols seed risk iterations).
Proof.
  intros Hc. split; [done|]. split; [done|]. intros c. apply init_infected_dom.
Qed.

Lemma bfs_none_iff_no_route_witness :
  ∃ res, bfs (Infection_init 2 2 0 0 0) = Return res ∧
         (size (Infection_init 2 2 0 0 0) ≠ 1 →
          res = None ↔ ¬ ∃ l, free_route (Infection_init 2 2 0 0 0) l).
Proof.
  apply (bfs_none_iff_no_route (Infection_init 2 2 0 0 0)).
  - apply init_keys_in_grid. reflexivity.
  - reflexivity.
Defined.

(** X7. When the start cell is not an uninfected key of the dictionary,
    it is not a key of the adjacency list and [bfs] raises [KeyError] on
    its first lookup. *)
Theorem bfs_infected_start_raises s alist :
  adjacency_list s = Return alist → ¬ uninfected s 0 →
  bfs s = Raise (KeyError 0).
Proof.
  intros Hal Hstart.
  assert (alist !! 0 = None) as Hnone.
  { destruct (alist !! 0) as [row|] eqn:Hrow; [|done].
    destruct (adjacency_list_rows s alist Hal) as [_ Hrows].
    by destruct (Hrows 0 row Hrow) as (_ & ? & _). }
  unfold bfs. rewrite Hal. unfold mbind, except_bind, bfs_fuel.
  cbn [Nat.add bfs_loop last]. rewrite Hnone.
  rewrite bool_decide_eq_false_2 by apply not_elem_of_nil. done.
Qed.

Lemma bfs_infected_start_raises_witness :
  bfs (set_infected (<[0 := Some 0]> (init_infected 4))
         (Infection_init 2 2 0 0 0))
  = Raise (KeyError 0).
Proof.
  eapply bfs_infected_start_raises.
  - vm_compute. reflexivity.
  - unfold uninfected. vm_compute. discriminate.
Defined.

(** ** The whole program *)

Lemma spawn_loop_raises_exhausted rs n (positions : gset Z) w e w' :
  spawn_loop rs n positions w = Raised e w' →
  e = IndexError ∧ (base.size positions < n)%nat.
Proof.
  revert positions w. induction n as [|n IH]; intros positions w Hrun;
    simpl in Hrun; [done|].
  destruct (random_choice rs (draws w) (elements positions)) as [p|] eqn:Hp.
  - apply random_choice_elem, elem_of_elements in Hp.
    apply IH in Hrun as [-> Hlt]. split; [done|].
    rewrite size_difference in Hlt by (by apply singleton_subseteq_l).
    rewrite size_singleton in Hlt.
    assert (base.size positions ≠ 0)%nat; [|lia].
    intros Hz. apply size_empty_inv in Hz. by apply Hz in Hp.
  - injection Hrun as <- <-. split; [done|].
    destruct (decide (elements positions = [])) as [Hel|Hel].
    + apply elements_empty_inv in Hel. apply size_empty_iff in Hel. lia.
    + apply (random_choice_nonempty rs (draws w)) in Hel as [p' Hp'].
      congruence.
Qed.

Lemma spawn_loop_setup rs n (positions : gset Z) w :
  same_setup (self w) (self (world_of (spawn_loop rs n positions w))) ∧
  generation (self (world_of (spawn_loop rs n positions w)))
    = generation (self w).
Proof.
  apply (spawn_loop_preserves rs
    (λ s, same_setup (self w) s ∧ generation s = generation (self w)));
    [|split; [apply same_setup_refl|done]].
  intros pos r w' [Hs Hg]. destruct (infect_setup rs pos r w') as [Hs' Hg'].
  split; [eauto using same_setup_trans|congruence].
Qed.

Lemma spawn_setup rs w :
  same_setup (self w) (self (world_of (spawn rs w))) ∧
  generation (self (world_of (spawn rs w))) = generation (self w).
Proof.
  unfold spawn. destruct (seed_count (self w)).
  - apply spawn_loop_setup.
  - split; [apply same_setup_refl|done].
Qed.

Lemma seed_count_raises s e :
  seed_count s = Raise e → e = ValueError ∨ e = OverflowError.
Proof.
  unfold seed_count, int_times_float.
  destruct (float_of_Z (size s)) as [sg|sg| |sg m e'];
    [|intros [= <-]; by right|..];
    (destruct (SFmul 53 1024 _ (seed s)) as [sg'|sg'| |sg' m' e''];
     cbn; intros [= <-]; auto).
Qed.

Lemma propagate_loop_setup rs fuel w :
  same_setup (self w) (self (propagate_loop rs fuel w)).
Proof.
  apply (propagate_loop_preserves rs (same_setup (self w)));
    [| |apply same_setup_refl].
  - intros pos r w' Hs. destruct (infect_setup rs pos r w') as [Hs' _].
    eauto using same_setup_trans.
  - intros s Hs. exact Hs.
Qed.

(** X8. On accepted arguments the program ends in one of these ways.
    Computing the seed count raises [ValueError] or [OverflowError] (a NaN
    [seed] passes the argument checks, and a grid can be too large for a
    float).  Or [spawn] raises [IndexError], and only when more seeds are
    requested than the pool holds.  Or it prints that no path was found,
    and then on a grid of more than one cell no route through uninfected
    cells exists.  Or it prints coordinates, and then [self.route] is a
    route through uninfected cells from corner to corner.  No [KeyError]
    is ever raised. *)
Theorem main_outcomes rs rows cols seed risk iterations :
  check_args rows cols seed risk iterations = true →
  let w0 := start_world rows cols seed risk iterations in
  match main rs rows cols seed risk iterations with
  | Ok (w, NoPath) =>
      route (self w) = None ∧
      (rows * cols ≠ 1 → ¬ ∃ l, free_route (self w) l)
  | Ok (w, Coordinates cs) =>
      ∃ r, route (self w) = Some r ∧ free_route (self w) r
  | Raised e w =>
      (seed_count (self w0) = Raise e ∧
       (e = ValueError ∨ e = OverflowError)) ∨
      (e = IndexError ∧
       ∃ count, seed_count (self w0) = Return count ∧
                (base.size (seed_pool (self w0)) < Z.to_nat count)%nat)
  end.
Proof.
  intros Hargs w0.
  destruct (check_args_range _ _ _ _ _ Hargs) as (Hr & Hc & _).
  unfold main, simulate. fold w0.
  pose proof (spawn_preserves rs corners_clear (infect_corners_clear rs) w0
                (start_corners_clear rows cols seed risk iterations Hr Hc))
    as Hclear.
  destruct (spawn_setup rs w0) as [(_ & _ & Hsz0 & _) _].
  destruct (spawn rs w0) as [w1|e w1] eqn:Hspawn.
  2:{ unfold spawn in Hspawn.
      destruct (seed_count (self w0)) as [count|e'] eqn:Hcount.
      - apply spawn_loop_raises_exhausted in Hspawn as [-> Hlt].
        right. split; [done|]. by exists count.
      - injection Hspawn as <- _. left. split; [done|].
        by apply (seed_count_raises (self w0)). }
  set (w := propagate rs w1).
  assert (keys_in_grid (self w)) as Hkeys.
  { destruct (reachable_keys rs rows cols seed risk iterations Hargs)
      as [_ Hloop]. by apply Hloop. }
  assert (corners_clear (self w)) as [Hstart _].
  { apply propagate_preserves;
      auto using infect_corners_clear, generation_corners_clear. }
  assert (size (self w) = rows * cols) as Hsize.
  { assert (size (self w) = size (self w1)) as Hsz
      by apply propagate_loop_setup.
    simpl in Hsz0. by rewrite Hsz, Hsz0. }
  destruct (bfs_exhaustive (self w) Hkeys Hstart) as (res & Hbfs & Hres).
  unfold compute_path. rewrite Hbfs. unfold mbind, except_bind.
  destruct res as [r|]; simpl.
  - exists r. split; [done|].
    destruct Hkeys as (Hc' & Hs' & _).
    by destruct (bfs_some_free_route (self w) r Hc' Hs' Hbfs) as (_ & ? & _).
  - split; [done|]. intros Hone. apply Hres; [|done]. by rewrite Hsize.
Qed.

Lemma main_outcomes_witness :
  match main (constant_source 0 0) 2 2 0 0 0 with
  | Ok (w, NoPath) =>
      route (self w) = None ∧ (2 * 2 ≠ 1 → ¬ ∃ l, free_route (self w) l)
  | Ok (w, Coordinates cs) =>
      ∃ r, route (self w) = Some r ∧ free_route (self w) r
  | Raised e w =>
      (seed_count (self (start_world 2 2 0 0 0)) = Raise e ∧
       (e = ValueError ∨ e = OverflowError)) ∨
      (e = IndexError ∧
       ∃ count, seed_count (self (start_world 2 2 0 0 0)) = Return count ∧
                (base.size (seed_pool (self (start_world 2 2 0 0 0)))
                 < Z.to_nat count)%nat)
  end.
Proof.
  exact (main_outcomes (constant_source 0 0) 2 2 0 0 0 eq_refl).
Defined.

(** ** The course of the infection *)

Lemma infect_grows rs pos r w :
  infected_cells (self w) ⊆ infected_cells (self (infect rs pos r w)).
Proof.
  intros c Hc. apply elem_of_infected_cells in Hc as [g Hg].
  apply elem_of_infected_cells. by apply infect_keeps_infected with g.
Qed.

(** X9. Infection is never undone: the set of infected cells only grows,
    through seeding, within a round, over a round and over the whole of
    [propagate]. *)
Theorem infected_cells_grow rs w :
  (∀ n positions,
     infected_cells (self w)
       ⊆ infected_cells (self (world_of (spawn_loop rs n positions w)))) ∧
  (∀ k, infected_cells (self w)
          ⊆ infected_cells (self (round_prefix rs k w))) ∧
  infected_cells (self w) ⊆ infected_cells (self (round rs w)) ∧
  infected_cells (self w) ⊆ infected_cells (self (propagate rs w)).
Proof.
  assert (∀ pos r w', infected_cells (self w) ⊆ infected_cells (self w') →
            infected_cells (self w)
              ⊆ infected_cells (self (infect rs pos r w'))) as Hinfect.
  { intros pos r w' Hsub. etrans; [exact Hsub|apply infect_grows]. }
  repeat split.
  - intros n positions.
    by apply (spawn_loop_preserves rs
                (λ s, infected_cells (self w) ⊆ infected_cells s)).
  - intros k.
    by apply (round_prefix_preserves rs
                (λ s, infected_cells (self w) ⊆ infected_cells s)).
  - by apply (round_preserves rs
                (λ s, infected_cells (self w) ⊆ infected_cells s)).
  - by apply (propagate_preserves rs
                (λ s, infected_cells (self w) ⊆ infected_cells s)).
Qed.

Lemma infect_generations_bounded rs pos r w :
  generations_bounded (self w) →
  generations_bounded (self (infect rs pos r w)).
Proof.
  intros [H0 Hb]. unfold generations_bounded.
  destruct (infect_setup rs pos r w) as [_ ->]. split; [done|].
  intros c g Hg.
  destruct (infect_entry rs pos r w c) as [Heq|(_ & _ & Heq)];
    rewrite Heq in Hg.
  - by apply (Hb c).
  - injection Hg as <-. lia.
Qed.

Lemma next_generations_bounded s :
  generations_bounded s →
  generations_bounded (set_generation (generation s + 1) s).
Proof.
  intros [H0 Hb]. split; simpl; [lia|].
  intros c g Hg. apply Hb in Hg. lia.
Qed.

(** The [while] loop stops at the first generation that is not below
    [iterations]. *)
Lemma propagate_loop_generation rs fuel w :
  (Z.to_nat (iterations (self w) - generation (self w)) ≤ fuel)%nat →
  generation (self (propagate_loop rs fuel w))
    = Z.max (generation (self w)) (iterations (self w)).
Proof.
  revert w. induction fuel as [|fuel IH]; intros w Hfuel; simpl; [lia|].
  destruct (Z.ltb_spec (generation (self w)) (iterations (self w)));
    [|lia].
  destruct (round_generation rs w) as [Hg (_ & _ & _ & _ & _ & Hi)].
  rewrite IH by lia. lia.
Qed.

(** X10. [propagate] leaves [generation] at the larger of its value on
    entry and [iterations], and changes none of [rows], [cols], [size],
    [seed], [risk] and [iterations]. *)
Theorem propagate_final_generation rs w :
  generation (self (propagate rs w))
    = Z.max (generation (self w)) (iterations (self w)) ∧
  same_setup (self w) (self (propagate rs w)).
Proof.
  split; [by apply propagate_loop_generation|apply propagate_loop_setup].
Qed.

(** X11. In a run on accepted arguments that gets past seeding, the
    final generation is [iterations], and every generation number stored
    in the dictionary lies between 0 and [iterations]. *)
Theorem stored_generations_bounded rs rows cols seed risk iterations w :
  check_args rows cols seed risk iterations = true →
  simulate rs (start_world rows cols seed risk iterations) = Ok w →
  generation (self w) = iterations ∧
  ∀ c g, infected (self w) !! c = Some (Some g) → 0 ≤ g ≤ iterations.
Proof.
  intros Hargs Hrun.
  destruct (check_args_range _ _ _ _ _ Hargs) as (_ & _ & Hi).
  unfold simulate in Hrun.
  set (w0 := start_world rows cols seed risk iterations) in *.
  assert (generations_bounded (self (world_of (spawn rs w0)))) as Hb1.
  { apply (spawn_preserves rs generations_bounded
             (infect_generations_bounded rs)).
    split; [done|]. intros c g Hc. simpl in Hc.
    rewrite init_infected_lookup in Hc. by case_bool_decide. }
  destruct (spawn_setup rs w0) as [(_ & _ & _ & _ & _ & Hit) Hg].
  destruct (spawn rs w0) as [w1|e w1]; [|done].
  injection Hrun as <-. simpl in *.
  assert (generation (self (propagate rs w1)) = iterations) as Hfinal.
  { unfold propagate. rewrite propagate_loop_generation by lia.
    rewrite Hg, Hit. lia. }
  split; [done|]. rewrite <- Hfinal.
  apply (propagate_preserves rs generations_bounded);
    auto using infect_generations_bounded, next_generations_bounded.
Qed.

Lemma stored_generations_bounded_witness :
  ∃ w, simulate (constant_source 0 0) (start_world 1 4 (1 # 2) 1 1) = Ok w ∧
       generation (self w) = 1 ∧
       ∀ c g, infected (self w) !! c = Some (Some g) → 0 ≤ g ≤ 1.
Proof.
  eexists. split; [reflexivity|].
  apply (stored_generations_bounded (constant_source 0 0) 1 4 (1 # 2) 1 1);
    reflexivity.
Defined.

(** ** Where the infection can spread *)

Lemma get_neighbours_setup s s' pos :
  same_setup s s' → get_neighbours s' pos = get_neighbours s pos.
Proof.
  intros (_ & Hc & Hs & _). unfold get_neighbours. by rewrite Hc, Hs.
Qed.

Lemma is_corner_setup s s' c :
  same_setup s s' → is_corner s' c = is_corner s c.
Proof. intros (_ & _ & Hs & _). unfold is_corner. by rewrite Hs. Qed.

Lemma infect_from_spread rs w0 r w pos g n :
  spread_from w0 r w →
  infected (self w0) !! pos = Some (Some g) → g < r →
  n ∈ neighbour_cells (self w0) pos →
  spread_from w0 r (infect rs n None w).
Proof.
  intros (Hs & Hg & Hcells) Hpos Hlt Hn.
  destruct (infect_setup rs n None w) as [Hs' Hg'].
  split; [eauto using same_setup_trans|]. split; [congruence|].
  intros c. destruct (infect_entry rs n None w c) as [->|(-> & Hcorner & ->)];
    [apply Hcells|].
  right. rewrite Hg. split; [done|].
  split; [by rewrite <- (is_corner_setup (self w0) (self w))|].
  by exists pos, g.
Qed.

Lemma infect_cells_from_spread rs w0 r pos g
    (ns : list (string * option Z)) w :
  spread_from w0 r w →
  infected (self w0) !! pos = Some (Some g) → g < r →
  (∀ n, n ∈ omap snd ns → n ∈ neighbour_cells (self w0) pos) →
  spread_from w0 r
    (foldl (λ w' kn, match snd kn with
                     | Some n => infect rs n None w'
                     | None => w'
                     end) w ns).
Proof.
  intros Hw Hpos Hlt. revert w Hw.
  induction ns as [|[k [n|]] ns IH]; intros w Hw Hns; simpl; [done|..].
  - apply IH.
    + apply infect_from_spread with pos g; try done. apply Hns. simpl. by left.
    + intros n' Hn'. apply Hns. simpl. by right.
  - by apply IH.
Qed.

Lemma visit_from_spread rs w0 r w pos :
  spread_from w0 r w → spread_from w0 r (visit rs w pos).
Proof.
  intros Hw. unfold visit. destruct (transmits w pos) eqn:Ht; [|done].
  destruct Hw as (Hs & Hg & Hcells).
  unfold transmits in Ht. rewrite Hg in Ht.
  destruct (infected (self w) !! pos) as [[g|]|] eqn:Hpos; try done.
  apply Z.ltb_lt in Ht.
  assert (infected (self w0) !! pos = Some (Some g)) as Hpos0.
  { destruct (Hcells pos) as [Heq|(Heq & _)]; rewrite Hpos in Heq; [done|].
    injection Heq as ->. lia. }
  apply infect_cells_from_spread with pos g; try done.
  intros n Hn. unfold neighbour_cells.
  by rewrite <- (get_neighbours_setup (self w0) (self w)).
Qed.

Lemma visits_from_spread rs w0 r ps w :
  spread_from w0 r w → spread_from w0 r (foldl (visit rs) w ps).
Proof.
  revert w. induction ps as [|p ps IH]; intros w Hw; simpl; [done|].
  by apply IH, visit_from_spread.
Qed.

(** X12. Infection does not jump.  After a round, a cell either holds
    what it held before the round, or holds the number of the round, is
    not a corner, and is listed by [get_neighbours] for a cell that was
    already infected when the round started. *)
Theorem spread_is_local rs w c :
  infected (self (round rs w)) !! c = infected (self w) !! c ∨
  (infected (self (round rs w)) !! c = Some (Some (generation (self w) + 1)) ∧
   is_corner (self w) c = false ∧
   ∃ pos g, c ∈ neighbour_cells (self w) pos ∧
            infected (self w) !! pos = Some (Some g) ∧
            g ≤ generation (self w)).
Proof.
  assert (spread_from (next_generation w) (generation (self w) + 1)
            (round rs w)) as (_ & _ & Hcells).
  { apply visits_from_spread. split; [apply same_setup_refl|].
    split; [done|]. intros c'. by left. }
  destruct (Hcells c) as [Heq|(Heq & Hcorner & pos & g & Hn & Hpos & Hlt)];
    [by left|].
  right. split; [done|]. split; [done|]. exists pos, g.
  split; [done|]. split; [done|]. lia.
Qed.

(** ** Rounds that change nothing *)

Lemma visits_idle rs ps w :
  (∀ pos, transmits w pos = false) → foldl (visit rs) w ps = w.
Proof.
  intros Hidle. induction ps as [|p ps IH]; simpl; [done|].
  unfold visit at 2. by rewrite Hidle.
Qed.

Lemma no_infected_idle w :
  infected_cells (self w) = ∅ → ∀ pos, transmits w pos = false.
Proof.
  intros Hnone pos. unfold transmits.
  destruct (infected (self w) !! pos) as [[g|]|] eqn:Hpos; try done.
  assert (pos ∈ infected_cells (self w)) as Hin
    by (apply elem_of_infected_cells; eauto).
  rewrite Hnone in Hin. by apply elem_of_empty in Hin.
Qed.

Lemma propagate_loop_no_seed rs fuel w :
  infected_cells (self w) = ∅ →
  infected (self (propagate_loop rs fuel w)) = infected (self w) ∧
  draws (propagate_loop rs fuel w) = draws w.
Proof.
  revert w. induction fuel as [|fuel IH]; intros w Hnone; simpl; [done|].
  destruct (_ <? _); [|done].
  assert (round rs w = next_generation w) as ->.
  { apply visits_idle. by apply (no_infected_idle (next_generation w)). }
  by apply (IH (next_generation w)).
Qed.

(** X13. Without an infected cell nothing spreads: a round only adds one
    to [generation], and [propagate] leaves the dictionary as it was and
    draws no sample. *)
Theorem no_seed_no_spread rs w :
  infected_cells (self w) = ∅ →
  round rs w = next_generation w ∧
  infected (self (propagate rs w)) = infected (self w) ∧
  draws (propagate rs w) = draws w.
Proof.
  intros Hnone. split; [|by apply propagate_loop_no_seed].
  apply visits_idle. by apply (no_infected_idle (next_generation w)).
Qed.

Lemma no_seed_no_spread_witness :
  round (constant_source 0 0) (start_world 3 3 0 1 3)
    = next_generation (start_world 3 3 0 1 3) ∧
  infected (self (propagate (constant_source 0 0) (start_world 3 3 0 1 3)))
    = infected (self (start_world 3 3 0 1 3)) ∧
  draws (propagate (constant_source 0 0) (start_world 3 3 0 1 3))
    = draws (start_world 3 3 0 1 3).
Proof.
  apply (no_seed_no_spread (constant_source 0 0) (start_world 3 3 0 1 3)).
  apply set_eq. intros c. rewrite elem_of_infected_cells. simpl.
  rewrite init_infected_lookup, elem_of_empty.
  split; [|intros []]. intros [g Hg]. destruct (bool_decide _); discriminate.
Defined.

(** ** Attempts made by [propagate]

    [propagate] calls [infect] without a risk argument; a property kept by
    such calls and by the increment of [generation] is kept by the
    rounds. *)

Section Attempts.
Variable rs : RandomSource.
Variable P : Infection → Prop.
Hypothesis P_attempt : ∀ pos w, P (self w) → P (self (infect rs pos None w)).
Hypothesis P_next : ∀ s, P s → P (set_generation (generation s + 1) s).

Lemma attempts_visit w pos : P (self w) → P (self (visit rs w pos)).
Proof.
  unfold visit. destruct (transmits w pos); [|done].
  unfold infect_neighbours. generalize (get_neighbours (self w) pos).
  intros ns. revert w. induction ns as [|[k [n|]] ns IH]; intros w Hw; simpl;
    auto.
Qed.

Lemma attempts_visits ps w : P (self w) → P (self (foldl (visit rs) w ps)).
Proof.
  revert w. induction ps as [|p ps IH]; intros w Hw; simpl; [done|].
  by apply IH, attempts_visit.
Qed.

Lemma attempts_round w : P (self w) → P (self (round rs w)).
Proof. intros Hw. apply attempts_visits. simpl. by apply P_next. Qed.

Lemma attempts_propagate_loop fuel w :
  P (self w) → P (self (propagate_loop rs fuel w)).
Proof.
  revert w. induction fuel as [|fuel IH]; intros w Hw; simpl; [done|].
  destruct (_ <? _); [|done]. by apply IH, attempts_round.
Qed.
End Attempts.

(** X14. When every sample exceeds [risk], no attempt succeeds and
    [propagate] leaves the dictionary as it was. *)
Theorem failed_samples_no_spread rs w :
  (∀ k, sample_le (random_random rs k) (risk (self w)) = false) →
  infected (self (propagate rs w)) = infected (self w).
Proof.
  intros Hfail.
  apply (attempts_propagate_loop rs
    (λ s, risk s = risk (self w) ∧ infected s = infected (self w)));
    [| |done].
  - intros pos w' [Hr Hd]. unfold infect. rewrite Hr, Hfail. simpl.
    by split.
  - intros s Hs. exact Hs.
Qed.

Lemma failed_samples_no_spread_witness :
  let w := {| self := {| rows := 1; cols := 4; seed := 1 # 2; risk := 1 # 2;
                         iterations := 3; generation := 0; size := 4;
                         route := None;
                         infected := infected two_seeds_round_one |};
              draws := 0 |} in
  (∀ k, sample_le (random_random (constant_source 1 0) k) (risk (self w))
        = false) ∧
  infected (self (propagate (constant_source 1 0) w)) = infected (self w).
Proof.
  intros w. split; [intros k; reflexivity|].
  apply (failed_samples_no_spread (constant_source 1 0) w).
  intros k. reflexivity.
Defined.

(** ** Certain transmission *)

Lemma infect_cells_grow rs (ns : list (string * option Z)) w :
  infected_cells (self w) ⊆
  infected_cells
    (self (foldl (λ w' kn, match snd kn with
                           | Some n => infect rs n None w'
                           | None => w'
                           end) w ns)).
Proof.
  revert w. induction ns as [|[k [n|]] ns IH]; intros w; simpl; [done|..].
  - etrans; [apply (infect_grows rs n None w)|apply IH].
  - apply IH.
Qed.

Lemma sample_le_mono q q' (ir : spec_float) :
  (q <= q')%Q → sample_le q' ir = true → sample_le q ir = true.
Proof.
  intros Hle. destruct ir as [sg|sg| |sg m e]; simpl; try done;
    rewrite !Qle_bool_iff; by apply Qle_trans.
Qed.

Lemma infect_certain rs n w :
  unit_samples rs → sample_le 1 (risk (self w)) = true →
  is_corner (self w) n = false →
  n ∈ infected_cells (self (infect rs n None w)).
Proof.
  intros Hrs Hrisk Hcorner. apply elem_of_infected_cells.
  exists (generation (self w)). rewrite infect_lookup, Hcorner.
  assert (sample_le (random_random rs (draws w)) (risk (self w)) = true)
    as ->.
  { apply sample_le_mono with 1%Q; [|done]. apply Qlt_le_weak, Hrs. }
  by rewrite bool_decide_eq_true_2.
Qed.

Lemma infect_cells_certain rs (ns : list (string * option Z)) w n :
  unit_samples rs → sample_le 1 (risk (self w)) = true →
  n ∈ omap snd ns → is_corner (self w) n = false →
  n ∈ infected_cells
        (self (foldl (λ w' kn, match snd kn with
                               | Some n => infect rs n None w'
                               | None => w'
                               end) w ns)).
Proof.
  intros Hrs. revert w.
  induction ns as [|[k [m|]] ns IH]; intros w Hrisk Hn Hcorner; simpl in *.
  - by apply elem_of_nil in Hn.
  - destruct (infect_setup rs m None w) as [Hs _].
    apply elem_of_cons in Hn as [->|Hn].
    + apply infect_cells_grow. by apply infect_certain.
    + apply IH; [|done|].
      * destruct Hs as (_ & _ & _ & _ & -> & _). done.
      * by rewrite (is_corner_setup (self w)).
  - by apply IH.
Qed.

(** X15. With [risk] at least 1 (the test [1 <= risk] holds), a cell that passes the test of a round
    infects all its neighbours: each neighbour that is not a corner is
    infected when the round ends. *)
Theorem certain_risk_infects_neighbours rs w k pos n :
  unit_samples rs → sample_le 1 (risk (self w)) = true →
  seqZ 0 (size (self w)) !! k = Some pos →
  transmits (round_prefix rs k w) pos = true →
  n ∈ neighbour_cells (self w) pos → is_corner (self w) n = false →
  n ∈ infected_cells (self (round rs w)).
Proof.
  intros Hrs Hrisk Hk Ht Hn Hcorner.
  assert (same_setup (self w) (self (round_prefix rs k w))) as Hs.
  { unfold round_prefix.
    by destruct (visits_generation rs (take k (seqZ 0 (size (self w))))
                   (next_generation w)) as [_ Hs]. }
  assert (round rs w =
          foldl (visit rs) (visit rs (round_prefix rs k w) pos)
                (drop (S k) (seqZ 0 (size (self w))))) as ->.
  { unfold round, round_prefix.
    rewrite <- (take_drop_middle _ _ _ Hk) at 1.
    by rewrite foldl_app. }
  apply (visits_preserve rs (λ s, n ∈ infected_cells s)).
  { intros p r w' Hin. by apply infect_grows. }
  unfold visit. rewrite Ht. unfold infect_neighbours.
  apply infect_cells_certain; [done| | |].
  - by destruct Hs as (_ & _ & _ & _ & -> & _).
  - unfold neighbour_cells in Hn.
    by rewrite (get_neighbours_setup (self w)).
  - by rewrite (is_corner_setup (self w)).
Qed.

Lemma certain_risk_infects_neighbours_witness :
  let w := {| self := two_seeds_round_one; draws := 0 |} in
  unit_samples (constant_source 0 0) ∧
  2 ∈ infected_cells (self (round (constant_source 0 0) w)).
Proof.
  intros w.
  assert (unit_samples (constant_source 0 0)) as Hrs by (by intros k; split).
  split; [exact Hrs|].
  apply (certain_risk_infects_neighbours (constant_source 0 0) w 1 1 2 Hrs).
  - by vm_compute.
  - reflexivity.
  - reflexivity.
  - apply elem_of_neighbour_cells. right; right; right. by split.
  - reflexivity.
Defined.

(** ** Generation numbers over time *)

(** X16. Although an infected cell can be stamped again, its generation
    number never decreases: when the stored numbers are bounded by the
    current generation, a cell infected with number [g] holds a number
    that is at least [g] after [propagate]. *)
Theorem generation_never_decreases rs w c g :
  generations_bounded (self w) →
  infected (self w) !! c = Some (Some g) →
  ∃ g', infected (self (propagate rs w)) !! c = Some (Some g') ∧ g ≤ g'.
Proof.
  intros [_ Hb] Hc. apply Hb in Hc as Hg.
  assert (generation (self w) ≤ generation (self (propagate rs w)) ∧
          ∃ g', infected (self (propagate rs w)) !! c = Some (Some g') ∧
                g ≤ g') as [_ Hgoal]; [|done].
  apply (propagate_preserves rs
    (λ s, generation (self w) ≤ generation s ∧
          ∃ g', infected s !! c = Some (Some g') ∧ g ≤ g')).
  - intros pos r w' [Hle (g' & Hg' & Hgg')].
    destruct (infect_setup rs pos r w') as [_ Hgen]. split; [lia|].
    destruct (infect_entry rs pos r w' c) as [->|(_ & _ & ->)].
    + by exists g'.
    + exists (generation (self w')). split; [done|lia].
  - intros s [Hle Hex]. simpl. split; [lia|done].
  - split; [lia|]. by exists g.
Qed.

Lemma generation_never_decreases_witness :
  let w := {| self := set_generation 0 two_seeds_round_one; draws := 0 |} in
  ∃ g', infected (self (propagate (constant_source 0 0) w)) !! 2
          = Some (Some g') ∧ 0 ≤ g'.
Proof.
  intros w. apply (generation_never_decreases (constant_source 0 0) w 2 0).
  - split; [done|]. intros c g Hc. simpl in Hc.
    destruct (decide (c = 2)) as [->|H2].
    + rewrite lookup_insert_eq in Hc. injection Hc as <-. done.
    + rewrite lookup_insert_ne in Hc by done.
      destruct (decide (c = 1)) as [->|H1].
      * rewrite lookup_insert_eq in Hc. injection Hc as <-. done.
      * rewrite lookup_insert_ne in Hc by done.
        rewrite init_infected_lookup in Hc.
        destruct (bool_decide _); discriminate.
  - reflexivity.
Defined.

(** ** Printed coordinates on any grid *)

(** X17. The second component printed for a cell is its column; on a
    square grid the first component is its row, and the pair determines
    the cell by [i * cols + j]. *)
Theorem coordinate_square_grid s pos :
  0 < cols s →
  snd (coordinate s pos) = col_of s pos ∧
  (rows s = cols s →
   fst (coordinate s pos) = row_of s pos ∧
   fst (coordinate s pos) * cols s + snd (coordinate s pos) = pos).
Proof.
  intros Hc. unfold coordinate, row_of, col_of. simpl. split; [done|].
  intros ->. split; [done|].
  destruct (cell_coordinates (cols s) pos Hc) as [Heq _].
  rewrite Heq at 3. apply Z.add_cancel_r, Z.mul_comm.
Qed.

Lemma coordinate_square_grid_witness :
  snd (coordinate (Infection_init 3 3 0 0 0) 5)
    = col_of (Infection_init 3 3 0 0 0) 5 ∧
  (rows (Infection_init 3 3 0 0 0) = cols (Infection_init 3 3 0 0 0) →
   fst (coordinate (Infection_init 3 3 0 0 0) 5)
     = row_of (Infection_init 3 3 0 0 0) 5 ∧
   fst (coordinate (Infection_init 3 3 0 0 0) 5)
     * cols (Infection_init 3 3 0 0 0)
     + snd (coordinate (Infection_init 3 3 0 0 0) 5) = 5).
Proof.
  apply (coordinate_square_grid (Infection_init 3 3 0 0 0) 5). reflexivity.
Defined.

(** ** The route has no repeated cell *)

Lemma linked_cons_inv R x (l : list Z) :
  l ≠ [] → linked R (x :: l) →
  ∃ b l', l = b :: l' ∧ R x b ∧ linked R (b :: l').
Proof.
  intros Hne Hl. inversion Hl as [|? b l' Hxb Hrest]; subst; [done|].
  by exists b, l'.
Qed.

Lemma linked_suffix R (l1 l2 : list Z) :
  l2 ≠ [] → linked R (l1 ++ l2) → linked R l2.
Proof.
  intros Hne. induction l1 as [|a l1 IH]; intros Hl; [done|].
  apply IH. simpl in Hl.
  apply linked_cons_inv in Hl as (b & l' & -> & _ & Hrest); [done|].
  intros Hnil. apply app_eq_nil in Hnil as [_ ?]. done.
Qed.

Lemma linked_splice R (p : list Z) a l l' :
  linked R (p ++ a :: l) → linked R (a :: l') → linked R (p ++ a :: l').
Proof.
  intros Hl Hl'. induction p as [|x p IH]; [done|].
  simpl in *.
  apply linked_cons_inv in Hl as (b & m & Heq & Hxb & Hrest);
    [|by destruct p].
  rewrite <- Heq in Hrest. specialize (IH Hrest).
  destruct p as [|y p]; simpl in *; injection Heq as <- _;
    by apply linked_cons.
Qed.

Lemma repeated_cell (l : list Z) :
  ¬ NoDup l → ∃ p a l1 l2, l = p ++ a :: l1 ++ a :: l2.
Proof.
  induction l as [|x l IH]; intros Hdup; [by destruct Hdup; constructor|].
  destruct (decide (x ∈ l)) as [Hin|Hout].
  - apply list_elem_of_split in Hin as (l1 & l2 & ->). by exists [], x, l1, l2.
  - destruct IH as (p & a & l1 & l2 & ->).
    { intros Hnd. apply Hdup. by apply NoDup_cons. }
    by exists (x :: p), a, l1, l2.
Qed.

(** Cutting the cells between two visits of the same cell out of a free
    route leaves a free route. *)
Lemma free_route_cut s (p : list Z) a l1 l2 :
  free_route s (p ++ a :: l1 ++ a :: l2) → free_route s (p ++ a :: l2).
Proof.
  intros (Hh & Hl & Hfree & Hlink). repeat split.
  - by destruct p.
  - rewrite last_app_cons. rewrite last_app_cons in Hl.
    change (a :: l1 ++ a :: l2) with ((a :: l1) ++ a :: l2) in Hl.
    by rewrite last_app_cons in Hl.
  - apply Forall_app in Hfree as [Hp Hrest]. apply Forall_app. split; [done|].
    apply (Forall_app _ (a :: l1) (a :: l2)) in Hrest. apply Hrest.
  - apply linked_splice with (l1 ++ a :: l2); [done|].
    apply (linked_suffix _ (p ++ a :: l1) (a :: l2)); [done|].
    by rewrite <- app_assoc.
Qed.

Lemma shortest_free_route_NoDup s r :
  free_route s r →
  (∀ l, free_route s l → (length r ≤ length l)%nat) → NoDup r.
Proof.
  intros Hr Hmin. destruct (decide (NoDup r)) as [|Hdup]; [done|].
  exfalso. apply repeated_cell in Hdup as (p & a & l1 & l2 & ->).
  apply free_route_cut in Hr. apply Hmin in Hr.
  rewrite !length_app in Hr. simpl in Hr. rewrite length_app in Hr.
  simpl in Hr. lia.
Qed.

(** ** What [compute_path] prints *)

Lemma ordered_insert_fresh pos c (path : list (Z * (Z * Z))) :
  pos ∉ path.*1 → ordered_insert pos c path = path ++ [(pos, c)].
Proof.
  induction path as [|[k v] path IH]; intros Hnew; simpl; [done|].
  simpl in Hnew. apply not_elem_of_cons in Hnew as [Hne Hnew].
  destruct (Z.eqb_spec k pos) as [->|_]; [done|]. by rewrite IH.
Qed.

Lemma ordered_insert_all (f : Z → Z * Z) cells (path : list (Z * (Z * Z))) :
  NoDup cells → (∀ c, c ∈ cells → c ∉ path.*1) →
  foldl (λ p pos, ordered_insert pos (f pos) p) path cells
    = path ++ map (λ pos, (pos, f pos)) cells.
Proof.
  revert path. induction cells as [|c cells IH]; intros path Hnd Hnew; simpl.
  - by rewrite app_nil_r.
  - apply NoDup_cons in Hnd as [Hc Hnd].
    rewrite ordered_insert_fresh by (apply Hnew; by left).
    rewrite IH; [by rewrite <- app_assoc|done|].
    intros c' Hc'. rewrite fmap_app. simpl.
    intros Hin. apply elem_of_app in Hin as [Hin|Hin].
    + apply (Hnew c'); [by right|done].
    + apply list_elem_of_singleton in Hin as ->. done.
Qed.

(** X18. When [bfs] returns a route, no cell occurs twice in it, so the
    ordered dictionary of [compute_path] keeps one entry per cell:
    [self.route] is set to the route and the coordinates printed are
    those of its cells, in route order.  When [bfs] returns [None],
    [self.route] is [None] and no coordinate is printed. *)
Theorem compute_path_prints_route s :
  0 < cols s → size s = rows s * cols s →
  match bfs s with
  | Return (Some r) =>
      NoDup r ∧
      compute_path s
        = Return (set_route (Some r) s, Coordinates (map (coordinate s) r))
  | Return None => compute_path s = Return (set_route None s, NoPath)
  | Raise e => compute_path s = Raise e
  end.
Proof.
  intros Hc Hs. unfold compute_path.
  destruct (bfs s) as [[r|]|e] eqn:Hbfs; [|done..].
  destruct (bfs_some_free_route s r Hc Hs Hbfs) as (_ & Hfree & Hmin).
  assert (NoDup r) as Hnd by (by apply (shortest_free_route_NoDup s)).
  split; [done|]. unfold mbind, except_bind.
  rewrite (ordered_insert_all (coordinate (set_route (Some r) s)) r []);
    [|done|intros c _; apply not_elem_of_nil].
  simpl. by rewrite map_map.
Qed.

Lemma compute_path_prints_route_witness :
  match bfs (Infection_init 2 3 0 0 0) with
  | Return (Some r) =>
      NoDup r ∧
      compute_path (Infection_init 2 3 0 0 0)
        = Return (set_route (Some r) (Infection_init 2 3 0 0 0),
                  Coordinates (map (coordinate (Infection_init 2 3 0 0 0)) r))
  | Return None =>
      compute_path (Infection_init 2 3 0 0 0)
        = Return (set_route None (Infection_init 2 3 0 0 0), NoPath)
  | Raise e => compute_path (Infection_init 2 3 0 0 0) = Raise e
  end.
Proof.
  apply (compute_path_prints_route (Infection_init 2 3 0 0 0)); reflexivity.
Defined.

(** ** Seeding *)

Lemma seed_count_nan s :
  seed s = S754_nan →
  seed_count s = Raise ValueError ∨ seed_count s = Raise OverflowError.
Proof.
  intros Hnan. unfold seed_count, int_times_float. rewrite Hnan.
  destruct (float_of_Z (size s)) as [sg|sg| |sg m e]; cbn; auto.
Qed.

(** X19. The eligible pool is every cell but the two corners.  If
    computing the count [floor(size * seed)] raises, [spawn] raises the
    same exception before any draw.  If the count does not exceed the size
    of the pool, [spawn] returns and exactly that many distinct cells of
    the pool are infected, each with generation 0.  If it exceeds the size
    of the pool, [spawn] raises [IndexError]. *)
Theorem seeding_exact_or_raises rs rows cols seed risk iterations :
  unit_samples rs →
  let w0 := start_world rows cols seed risk iterations in
  let pool := seed_pool (self w0) in
  (∀ c, c ∈ pool ↔ 0 ≤ c < rows * cols ∧ c ≠ 0 ∧ c ≠ rows * cols - 1) ∧
  match seed_count (self w0) with
  | Raise e => spawn rs w0 = Raised e w0
  | Return count =>
      ((Z.to_nat count ≤ base.size pool)%nat →
       ∃ w1, spawn rs w0 = Ok w1 ∧
             infected_cells (self w1) ⊆ pool ∧
             base.size (infected_cells (self w1)) = Z.to_nat count ∧
             ∀ c, c ∈ infected_cells (self w1) →
                  infected (self w1) !! c = Some (Some 0)) ∧
      ((base.size pool < Z.to_nat count)%nat →
       ∃ w1, spawn rs w0 = Raised IndexError w1)
  end.
Proof.
  intros Hrs w0 pool.
  split; [apply elem_of_start_pool|]. unfold spawn.
  destruct (seed_count (self w0)) as [count|e]; [|done]. split.
  - intros Hle.
    destruct (spawn_loop_exact rs (Z.to_nat count) pool w0 Hrs) as
      (w1 & picked & Hrun & Hsub & Hn & Hlk); [|done|].
    { intros p Hp. apply elem_of_difference in Hp as [_ Hp].
      unfold is_corner.
      destruct (Z.eqb_spec p 0) as [->|_];
        [exfalso; apply Hp, elem_of_union; left; by apply elem_of_singleton|].
      destruct (Z.eqb_spec p (size (self w0) - 1)) as [->|_]; [|done].
      exfalso. apply Hp, elem_of_union. right. by apply elem_of_singleton. }
    assert (infected_cells (self w1) = picked) as Heq.
    { apply set_eq. intros c. rewrite elem_of_infected_cells, Hlk.
      destruct (decide (c ∈ picked)) as [Hin|Hout].
      - rewrite bool_decide_eq_true_2 by done. split; eauto.
      - rewrite bool_decide_eq_false_2 by done. simpl.
        rewrite init_infected_lookup. split; [|done].
        intros [g Hg]. by case_bool_decide. }
    exists w1. rewrite Heq. split; [done|]. split; [done|]. split; [done|].
    intros c Hc. rewrite Hlk. by rewrite bool_decide_eq_true_2.
  - intros Hlt. by apply spawn_loop_exhausted.
Qed.

Lemma seeding_exact_or_raises_witness :
  unit_samples (constant_source 0 0) ∧
  ∃ w1, spawn (constant_source 0 0) (start_world 2 3 (1 # 2) 0 0) = Ok w1 ∧
        base.size (infected_cells (self w1)) = 3%nat.
Proof.
  assert (unit_samples (constant_source 0 0)) as Hrs by (by intros k; split).
  split; [exact Hrs|].
  pose proof (seeding_exact_or_raises (constant_source 0 0) 2 3 (1 # 2) 0 0
                Hrs) as [_ Hcount].
  change (seed_count (self (start_world 2 3 (1 # 2) 0 0)))
    with (Return 3 : Except Z) in Hcount.
  destruct Hcount as [Hexact _].
  destruct Hexact as (w1 & Hrun & _ & Hn & _); [vm_compute; lia|].
  exists w1. split; [exact Hrun|exact Hn].
Defined.

(** ** NaN arguments *)

(** X20. NaN passes the argument checks, for [seed] and for [risk], just
    as 0 does.  With a NaN [seed] the count cannot be computed and [spawn]
    raises before any draw ([ValueError], or [OverflowError] when the grid
    is too large for a float).  With a NaN [risk] no attempt of
    [propagate] succeeds and the dictionary is left as it was. *)
Theorem nan_arguments rs rows cols sd rk iterations :
  check_args rows cols S754_nan rk iterations
    = check_args rows cols 0 rk iterations ∧
  check_args rows cols sd S754_nan iterations
    = check_args rows cols sd 0 iterations ∧
  (let w0 := start_world rows cols S754_nan rk iterations in
   spawn rs w0 = Raised ValueError w0 ∨
   spawn rs w0 = Raised OverflowError w0) ∧
  (∀ w, risk (self w) = S754_nan →
        infected (self (propagate rs w)) = infected (self w)).
Proof.
  split; [done|]. split; [done|]. split.
  - intros w0. unfold spawn.
    destruct (seed_count_nan (self w0) eq_refl) as [-> | ->]; auto.
  - intros w Hnan.
    apply (attempts_propagate_loop rs
      (λ s, risk s = S754_nan ∧ infected s = infected (self w)));
      [| |done].
    + intros pos w' [Hr Hd]. unfold infect. rewrite Hr. simpl. by split.
    + intros s' Hs. exact Hs.
Qed.
